(** * Population Ecology Platform: the simulation core

    A shallow embedding of the simulation engine of
    [src/PopulationEcologyPlatform.tsx]: the four step functions
    ([exponentialGrowthDiscrete], [logisticGrowthDiscrete],
    [predatorPreyODE], [competitionODE]), the animation loop that appends
    points to the trajectory, and [resetSimulation].

    JavaScript numbers are IEEE 754 binary64 values with round-to-nearest-even
    arithmetic, so they are modelled by Rocq's primitive floats, whose
    operations are specified against [spec_float] by the standard library. *)

From Stdlib Require Import Reals Lra Psatz.
From Stdlib Require Import Floats ZArith Bool List String Lia.
Import ListNotations.

Set Warnings "-inexact-float".
Local Open Scope float_scope.

(** ** JavaScript number primitives used by the engine *)

Module JS.

(** The global [isNaN], on a value that already is a number. *)
Definition isNaN (x : float) : bool := is_nan x.

(** The global [isFinite]: neither NaN nor an infinity. *)
Definition isFinite (x : float) : bool := is_finite x.

(** [Math.max(x, y)]: NaN if either argument is NaN, otherwise the larger
    one, with [+0] counted as larger than [-0]. *)
Definition Math_max (x y : float) : float :=
  if is_nan x || is_nan y then nan
  else if x <? y then y
  else if y <? x then x
  else if get_sign x then y else x.

(** [Math.ceil] on the bit-level representation: a value with a
    non-negative exponent is an integer already; otherwise the mantissa is
    shifted right and, for a positive value with a non-zero fractional
    part, bumped by one.  A negative value in (-1, 0) gives [-0]. *)
Definition SFceil (x : spec_float) : spec_float :=
  match x with
  | S754_finite s m e =>
      if (0 <=? e)%Z then x
      else
        let q := Z.shiftr (Zpos m) (- e) in
        let exact := (Z.shiftl q (- e) =? Zpos m)%Z in
        if s then
          match q with
          | Z0 => S754_zero true
          | _ => binary_normalize prec emax (- q) 0 true
          end
        else binary_normalize prec emax (if exact then q else q + 1) 0 false
  | _ => x
  end.

Definition Math_ceil (x : float) : float := SF2Prim (SFceil (Prim2SF x)).

(** Truthiness of a number: [0], [-0] and [NaN] are falsy. *)
Definition truthy (x : float) : bool := negb (is_zero x || is_nan x).

(** [v || d] where [v] is an optional numeric field ([undefined] when the
    field is absent) and [d] a number. *)
Definition or_else (v : option float) (d : float) : float :=
  match v with
  | Some x => if truthy x then x else d
  | None => d
  end.

(** [l.slice(-n)]: the last [n] elements (all of [l] when it is shorter). *)
Definition slice_last {A : Type} (n : nat) (l : list A) : list A :=
  skipn (List.length l - n) l.

(** [for (let i = i0; i < steps; i++) s = body(s)] with a numeric counter.
    The counter is a double, so the loop does not terminate when [steps] is
    [Infinity] (or beyond 2^53, where [i + 1] rounds back to [i]); [fuel]
    bounds the number of iterations the model follows and [None] means the
    bound was reached. *)
Fixpoint for_loop {S : Type} (fuel : nat) (i steps : float)
         (body : S -> S) (s : S) : option S :=
  if i <? steps then
    match fuel with
    | O => None
    | Datatypes.S fuel' => for_loop fuel' (i + 1) steps body (body s)
    end
  else Some s.

End JS.

(** ** Data model *)

(** The [params] state object. *)
Module Params.
Record t : Type := mk {
  birthRate : float;
  deathRate : float;
  N0 : float;
  K : float;
  a : float;
  b : float;
  c : float;
  d : float;
  P0 : float;
  r1 : float;
  r2 : float;
  K1 : float;
  K2 : float;
  alpha12 : float;
  alpha21 : float;
  N1_0 : float;
  N2_0 : float;
  dt : float;
  timeStep : float
}.
End Params.

(** The initial value of [params]. *)
Definition defaultParams : Params.t :=
  {| Params.birthRate := 0.3; Params.deathRate := 0.1; Params.N0 := 50;
     Params.K := 1000;
     Params.a := 1.0; Params.b := 0.01; Params.c := 0.005; Params.d := 0.8;
     Params.P0 := 50;
     Params.r1 := 0.8; Params.r2 := 0.7; Params.K1 := 1000; Params.K2 := 1000;
     Params.alpha12 := 0.6; Params.alpha21 := 0.5;
     Params.N1_0 := 50; Params.N2_0 := 50;
     Params.dt := 0.02; Params.timeStep := 0.2 |}.

(** [interface DataPoint]: a time and four optional population fields. *)
Module DataPoint.
Record t : Type := mk {
  time : float;
  N : option float;
  P : option float;
  N1 : option float;
  N2 : option float
}.
End DataPoint.

(** ** Step functions *)

Section StepFunctions.

Variable params : Params.t.

Definition exponentialGrowthDiscrete (N : float) : float :=
  if N <=? 0 then 0
  else
    let netGrowthRate := Params.birthRate params - Params.deathRate params in
    N * (1 + netGrowthRate).

Definition logisticGrowthDiscrete (N : float) : float :=
  if N <=? 0 then 0
  else
    let netGrowthRate := Params.birthRate params - Params.deathRate params in
    N * (1 + netGrowthRate * (1 - N / Params.K params)).

(** The two constants both integrators compute before their loop. *)
Definition substeps (timeIncrement : float) : float :=
  JS.Math_ceil (timeIncrement / Params.dt params).

Definition substepSize (timeIncrement : float) : float :=
  timeIncrement / substeps timeIncrement.

(** One pass through the body of the predator-prey loop. *)
Definition predatorPreyEuler (actualDt : float) (s : float * float)
  : float * float :=
  let '(currentN, currentP) := s in
  let dN_dt := Params.a params * currentN - Params.b params * currentN * currentP in
  let dP_dt := Params.c params * currentN * currentP - Params.d params * currentP in
  (JS.Math_max 0 (currentN + dN_dt * actualDt),
   JS.Math_max 0 (currentP + dP_dt * actualDt)).

(** Returns the pair [(N, P)] of the object the source returns. *)
Definition predatorPreyODE (fuel : nat) (N P timeIncrement : float)
  : option (float * float) :=
  if (N <=? 0) || (P <=? 0) then Some (JS.Math_max 0 N, JS.Math_max 0 P)
  else
    let steps := JS.Math_ceil (timeIncrement / Params.dt params) in
    let actualDt := timeIncrement / steps in
    JS.for_loop fuel 0 steps (predatorPreyEuler actualDt) (N, P).

(** One pass through the body of the competition loop. *)
Definition competitionEuler (actualDt : float) (s : float * float)
  : float * float :=
  let '(currentN1, currentN2) := s in
  let dN1_dt :=
    Params.r1 params * currentN1
    * (1 - (currentN1 + Params.alpha12 params * currentN2) / Params.K1 params) in
  let dN2_dt :=
    Params.r2 params * currentN2
    * (1 - (currentN2 + Params.alpha21 params * currentN1) / Params.K2 params) in
  (JS.Math_max 0 (currentN1 + dN1_dt * actualDt),
   JS.Math_max 0 (currentN2 + dN2_dt * actualDt)).

(** Returns the pair [(N1, N2)] of the object the source returns. *)
Definition competitionODE (fuel : nat) (N1 N2 timeIncrement : float)
  : option (float * float) :=
  if (N1 <=? 0) || (N2 <=? 0) then Some (JS.Math_max 0 N1, JS.Math_max 0 N2)
  else
    let steps := JS.Math_ceil (timeIncrement / Params.dt params) in
    let actualDt := timeIncrement / steps in
    JS.for_loop fuel 0 steps (competitionEuler actualDt) (N1, N2).

End StepFunctions.

(** ** Simulation driver *)

(** What one pass through the [try] block of the [setData] callback does:
    it leaves through one of the [return prevData] statements ([Rejected]),
    reaches the append with the completed [newPoint] ([Appended]), or is still
    inside an integrator loop when the fuel is spent ([Unfinished]). *)
Inductive Outcome : Type :=
  | Unfinished
  | Rejected
  | Appended (newPoint : DataPoint.t).

(** The test guarding each [return prevData]. *)
Definition invalid (x : float) : bool := JS.isNaN x || negb (JS.isFinite x).

Section Driver.

Variable params : Params.t.
Variable selectedModel : string.

(** The body of the [setData] callback from [const lastPoint] up to the
    append.  An unknown model name falls through the [else if] chain and the
    point carries a time only.  The [console] calls have no effect on the
    result, and nothing inside the [try] block throws. *)
Definition nextPoint (fuel : nat) (lastPoint : DataPoint.t) : Outcome :=
  let newTime := DataPoint.time lastPoint + Params.timeStep params in
  if (selectedModel =? "exponential")%string then
    let currentN := JS.or_else (DataPoint.N lastPoint) (Params.N0 params) in
    let result := exponentialGrowthDiscrete params currentN in
    if invalid result then Rejected
    else Appended (DataPoint.mk newTime (Some result) None None None)
  else if (selectedModel =? "logistic")%string then
    let currentN := JS.or_else (DataPoint.N lastPoint) (Params.N0 params) in
    let result := logisticGrowthDiscrete params currentN in
    if invalid result then Rejected
    else Appended (DataPoint.mk newTime (Some result) None None None)
  else if (selectedModel =? "predatorprey")%string then
    let currentN := JS.or_else (DataPoint.N lastPoint) (Params.N0 params) in
    let currentP := JS.or_else (DataPoint.P lastPoint) (Params.P0 params) in
    match predatorPreyODE params fuel currentN currentP (Params.timeStep params) with
    | None => Unfinished
    | Some (rN, rP) =>
        if JS.isNaN rN || JS.isNaN rP || negb (JS.isFinite rN) || negb (JS.isFinite rP)
        then Rejected
        else Appended (DataPoint.mk newTime (Some rN) (Some rP) None None)
    end
  else if (selectedModel =? "competition")%string then
    let currentN1 := JS.or_else (DataPoint.N1 lastPoint) (Params.N1_0 params) in
    let currentN2 := JS.or_else (DataPoint.N2 lastPoint) (Params.N2_0 params) in
    match competitionODE params fuel currentN1 currentN2 (Params.timeStep params) with
    | None => Unfinished
    | Some (rN1, rN2) =>
        if JS.isNaN rN1 || JS.isNaN rN2 || negb (JS.isFinite rN1) || negb (JS.isFinite rN2)
        then Rejected
        else Appended (DataPoint.mk newTime None None (Some rN1) (Some rN2))
    end
  else Appended (DataPoint.mk newTime None None None None).

(** [prevData[prevData.length - 1]]. *)
Definition lastOf (prevData : list DataPoint.t) : option DataPoint.t :=
  nth_error prevData (List.length prevData - 1).

(** The function passed to [setData]. *)
Definition updateData (fuel : nat) (prevData : list DataPoint.t)
  : option (list DataPoint.t) :=
  if (List.length prevData =? 0)%nat then Some prevData
  else
    match lastOf prevData with
    | None => Some prevData
    | Some lastPoint =>
        match nextPoint fuel lastPoint with
        | Unfinished => None
        | Rejected => Some prevData
        | Appended newPoint =>
            let newData := prevData ++ [newPoint] in
            Some (if (200 <? List.length newData)%nat
                  then JS.slice_last 200 newData else newData)
        end
    end.

(** The seed point built by [resetSimulation] and by the initialising
    effect. *)
Definition initialData : DataPoint.t :=
  if ((selectedModel =? "exponential") || (selectedModel =? "logistic"))%string
  then DataPoint.mk 0 (Some (Params.N0 params)) None None None
  else if (selectedModel =? "predatorprey")%string
  then DataPoint.mk 0 (Some (Params.N0 params)) (Some (Params.P0 params)) None None
  else if (selectedModel =? "competition")%string
  then DataPoint.mk 0 None None (Some (Params.N1_0 params)) (Some (Params.N2_0 params))
  else DataPoint.mk 0 None None None None.

End Driver.

(** The component state the engine reads and writes. *)
Record State : Type := mkState {
  isPlaying : bool;
  time : float;
  data : list DataPoint.t;
  params : Params.t;
  selectedModel : string
}.

(** One firing of the interval callback: [setData] with the updater, then
    [setTime(prev => prev + params.timeStep)].  The interval only exists while
    [isPlaying] holds. *)
Definition tick (fuel : nat) (st : State) : option State :=
  if isPlaying st then
    match updateData (params st) (selectedModel st) fuel (data st) with
    | None => None
    | Some newData =>
        Some (mkState true (time st + Params.timeStep (params st)) newData
                      (params st) (selectedModel st))
    end
  else Some st.

Definition resetSimulation (st : State) : State :=
  mkState false 0 [initialData (params st) (selectedModel st)]
          (params st) (selectedModel st).

(** [setIsPlaying(!isPlaying)], the play/pause button. *)
Definition togglePlaying (st : State) : State :=
  mkState (negb (isPlaying st)) (time st) (data st) (params st) (selectedModel st).

(** [n] consecutive firings of the interval callback. *)
Fixpoint ticks (fuel : nat) (n : nat) (st : State) : option State :=
  match n with
  | O => Some st
  | S n' =>
      match tick fuel st with
      | None => None
      | Some st' => ticks fuel n' st'
      end
  end.

(** ** Reference notions used to state the properties *)

(** The trajectory as it would be without the 200-point cap: every accepted
    point is appended and nothing is ever evicted. *)
Definition appendOnly (p : Params.t) (model : string) (fuel : nat)
           (history : list DataPoint.t) : option (list DataPoint.t) :=
  match lastOf history with
  | None => Some history
  | Some lastPoint =>
      match nextPoint p model fuel lastPoint with
      | Unfinished => None
      | Rejected => Some history
      | Appended newPoint => Some (history ++ [newPoint])
      end
  end.

Fixpoint appendOnlyTicks (p : Params.t) (model : string) (fuel : nat) (n : nat)
         (history : list DataPoint.t) : option (list DataPoint.t) :=
  match n with
  | O => Some history
  | S n' =>
      match appendOnly p model fuel history with
      | None => None
      | Some history' => appendOnlyTicks p model fuel n' history'
      end
  end.

(** The double [1] in the bit-level representation. *)
Definition one64 : spec_float := S754_finite false 4503599627370496 (-52).

(** Neither component of a pair of populations is a negative number. *)
Definition neverNegative (s : float * float) : Prop :=
  (fst s <? 0) = false /\ (snd s <? 0) = false.

(** A population is non-negative when [0 <= x] holds as a comparison of
    doubles (so NaN is not). *)
Definition nonneg (x : float) : bool := 0 <=? x.

(** [n]-fold application of a step on a pair of populations. *)
Fixpoint iterStep (step : float * float -> option (float * float)) (n : nat)
         (s : float * float) : option (float * float) :=
  match n with
  | O => Some s
  | S n' =>
      match step s with
      | None => None
      | Some s' => iterStep step n' s'
      end
  end.

(** [updateParam]: [setParams(prev => ({ ...prev, [param]: value }))], with
    the slider's string already parsed.  A name that is no field of [params]
    adds a property nothing reads. *)
Definition updateParam (param : string) (value : float) (prev : Params.t)
  : Params.t :=
  let upd (name : string) (field : Params.t -> float) : float :=
    if (param =? name)%string then value else field prev in
  (Params.mk (upd "birthRate" Params.birthRate) (upd "deathRate" Params.deathRate)
             (upd "N0" Params.N0) (upd "K" Params.K)
             (upd "a" Params.a) (upd "b" Params.b) (upd "c" Params.c)
             (upd "d" Params.d) (upd "P0" Params.P0)
             (upd "r1" Params.r1) (upd "r2" Params.r2)
             (upd "K1" Params.K1) (upd "K2" Params.K2)
             (upd "alpha12" Params.alpha12) (upd "alpha21" Params.alpha21)
             (upd "N1_0" Params.N1_0) (upd "N2_0" Params.N2_0)
             (upd "dt" Params.dt) (upd "timeStep" Params.timeStep))%string.

(** ** Concrete scenarios *)

(** Fastest growth the sliders allow: the population doubles every tick. *)
Definition doublingParams : Params.t :=
  updateParam "deathRate"%string 0 (updateParam "birthRate"%string 1 defaultParams).

(** A running exponential simulation whose last point is one doubling away
    from overflowing the double range. *)
Definition nearOverflow : State :=
  mkState true 0 [DataPoint.mk 0 (Some 1e308) None None None]
          doublingParams "exponential"%string.

(** Carrying capacity lowered to the slider minimum while the population is
    at 200. *)
Definition crowdedParams : Params.t :=
  updateParam "N0"%string 200 (updateParam "K"%string 10 doublingParams).

(** A trajectory whose last point records an extinct population. *)
Definition extinctPoint : DataPoint.t := DataPoint.mk 0 (Some 0) None None None.

(** Two finite rates whose difference overflows. *)
Definition extremeRates : Params.t :=
  updateParam "deathRate"%string (-1.7e308)
              (updateParam "birthRate"%string 1.7e308 defaultParams).

(** The integration step set to 0.01 with the slider. *)
Definition fineDt : Params.t := updateParam "dt"%string 0.01 defaultParams.

(** An integration step so coarse that [timeStep / dt] underflows. *)
Definition coarseDt : Params.t := updateParam "dt"%string 4 defaultParams.

(** A running exponential simulation, freshly reset, with the initial
    parameters. *)
Definition freshRun : State :=
  togglePlaying (resetSimulation (mkState false 0 [] defaultParams "exponential"%string)).

(** The state 250 ticks later. *)
Definition after250 : State :=
  Eval vm_compute in
    match ticks 0 250 freshRun with
    | Some st => st
    | None => freshRun
    end.

(** ** Reference notions for the substep partition *)

(** The double nearest to an integer; exact below 2^53. *)
Definition Zfloat (k : Z) : spec_float := binary_normalize prec emax k 0 false.

(** Powers of two as reals. *)
Definition bpow (e : Z) : R := powerRZ 2 e.

(** The real number a double stands for (0 for NaN and the infinities). *)
Definition SF2R (x : spec_float) : R :=
  match x with
  | S754_finite s m e => ((if s then - IZR (Zpos m) else IZR (Zpos m)) * bpow e)%R
  | _ => 0%R
  end.

Definition F2R (x : float) : R := SF2R (Prim2SF x).

(** The values the "Visualization Time Step" range input can take
    ([min="0.05" max="0.5" step="0.05"]), as [parseFloat] reads them. *)
Definition timeStepSlider : list float :=
  [0.05; 0.1; 0.15; 0.2; 0.25; 0.3; 0.35; 0.4; 0.45; 0.5].

(** The values the "Integration Step (dt)" range input can take
    ([min="0.005" max="0.1" step="0.005"]). *)
Definition dtSlider : list float :=
  [0.005; 0.01; 0.015; 0.02; 0.025; 0.03; 0.035; 0.04; 0.045; 0.05;
   0.055; 0.06; 0.065; 0.07; 0.075; 0.08; 0.085; 0.09; 0.095; 0.1].

(** [x] is [y] or one of its two neighbours among the doubles. *)
Definition withinOneUlp (x y : float) : bool :=
  (next_down y <=? x) && (x <=? next_up y).

(** What holds of the substep partition at one pair of slider settings: the
    quotient is positive and below 2^52, the time step is in the middle of
    the double range, there is at least one substep, and the double product
    of count and size is within one unit in the last place of the time
    step. *)
Definition sliderPartitionOk (timeStep dt : float) : bool :=
  let p := updateParam "dt"%string dt defaultParams in
  (0 <? timeStep / dt) && (timeStep / dt <? 4503599627370496)
  && (1e-280 <=? timeStep) && (timeStep <=? 1e280)
  && (1 <=? substeps p timeStep)
  && withinOneUlp (substeps p timeStep * substepSize p timeStep) timeStep.

(** ** The interval timer and the parameter names *)

(** The delay passed to [setInterval]. *)
Definition tickInterval (simulationSpeed : float) : float :=
  JS.Math_max 50 (150 - simulationSpeed).

(** The values of the "Simulation Speed" range input ([min="1" max="100"]),
    as [parseInt] reads them. *)
Definition speedSlider : list float :=
  map (fun k => SF2Prim (Zfloat (Z.of_nat k))) (seq 1 100).


(** ** The diagram builder *)

(** [Math.min(x, y)]: NaN if either argument is NaN, otherwise the smaller
    one, with [-0] counted as smaller than [+0]. *)
Definition Math_min (x y : float) : float :=
  if is_nan x || is_nan y then nan
  else if x <? y then x
  else if y <? x then y
  else if get_sign x then x else y.

(** [interface BuilderElement]; [text] is absent on every element that is
    not a text box. *)
Module BuilderElement.
Record t : Type := mk {
  id : float;
  type : string;
  x : float;
  y : float;
  text : option string
}.
End BuilderElement.

(** The [dragState] object; [elementId] is a number or [null]. *)
Module DragState.
Record t : Type := mk {
  isDragging : bool;
  elementId : option float;
  startX : float;
  startY : float;
  startElementX : float;
  startElementY : float
}.
End DragState.

(** The [editingText] object; [id] is a number or [null]. *)
Module EditingText.
Record t : Type := mk {
  id : option float;
  value : string
}.
End EditingText.

(** Truthiness of a [number | null]. *)
Definition truthyId (v : option float) : bool :=
  match v with
  | Some n => JS.truthy n
  | None => false
  end.

(** [element.id === v] for a number [element.id] and a [number | null]. *)
Definition sameId (n : float) (v : option float) : bool :=
  match v with
  | Some m => n =? m
  | None => false
  end.

(** [handleGlobalMouseMove]: the new [builderElements].  [rect] holds the
    width and height of the canvas rectangle and is absent while
    [canvasRef.current] is null. *)
Definition handleGlobalMouseMove (dragState : DragState.t)
           (rect : option (float * float)) (clientX clientY : float)
           (builderElements : list BuilderElement.t) : list BuilderElement.t :=
  match rect with
  | Some (width, height) =>
      if DragState.isDragging dragState && truthyId (DragState.elementId dragState)
      then
        let deltaX := clientX - DragState.startX dragState in
        let deltaY := clientY - DragState.startY dragState in
        let newX :=
          JS.Math_max 0 (Math_min (DragState.startElementX dragState + deltaX)
                                  (width - 80)) in
        let newY :=
          JS.Math_max 50 (Math_min (DragState.startElementY dragState + deltaY)
                                   (height - 80)) in
        map (fun element =>
               if sameId (BuilderElement.id element) (DragState.elementId dragState)
               then BuilderElement.mk (BuilderElement.id element)
                                      (BuilderElement.type element)
                                      newX newY
                                      (BuilderElement.text element)
               else element)
            builderElements
      else builderElements
  | None => builderElements
  end.


(** What a drag may change in one element: nothing, or its position, which
    then is neither left of 0 nor above 50. *)
Definition draggedFrom (element element' : BuilderElement.t) : Prop :=
  BuilderElement.id element' = BuilderElement.id element /\
  BuilderElement.type element' = BuilderElement.type element /\
  BuilderElement.text element' = BuilderElement.text element /\
  (element' = element \/
   ((BuilderElement.x element' <? 0) = false /\
    (BuilderElement.y element' <? 50) = false)).


(** A canvas with two elements, the first being dragged from where the
    pointer went down at (100, 100). *)
Definition sampleElements : list BuilderElement.t :=
  [BuilderElement.mk 7 "population" 120 130 None;
   BuilderElement.mk 8 "textbox" 300 200 (Some "Prey"%string)].

Definition sampleDrag : DragState.t := DragState.mk true (Some 7) 100 100 120 130.

(** * Properties *)

(** ** Facts about the binary64 specification *)

Section SpecFloatFacts.
Local Open Scope Z_scope.

Lemma iter_pos_as_iter {A} (f : A -> A) (k : positive) (x : A) :
  SpecFloat.iter_pos f k x = Pos.iter f x k.
Proof.
  revert x. induction k as [k IH|k IH|]; intros x; cbn.
  - rewrite !IH. now rewrite !Pos.iter_swap.
  - now rewrite !IH.
  - reflexivity.
Qed.

Lemma shr_1_iter_xO (k m : positive) :
  SpecFloat.iter_pos shr_1 k (Build_shr_record (Zpos (Pos.iter xO m k)) false false)
  = Build_shr_record (Zpos m) false false.
Proof.
  rewrite iter_pos_as_iter.
  induction k as [|k IH] using Pos.peano_ind.
  - reflexivity.
  - rewrite Pos.iter_succ_r, Pos.iter_succ. cbn [shr_1 orb]. exact IH.
Qed.

Lemma digits2_pos_iter_xO (k m : positive) :
  digits2_pos (Pos.iter xO m k) = (digits2_pos m + k)%positive.
Proof.
  induction k as [|k IH] using Pos.peano_ind.
  - cbn. lia.
  - rewrite Pos.iter_succ. cbn [digits2_pos]. rewrite IH. lia.
Qed.

Lemma binary_round_aux_canonical s m e :
  canonical_mantissa prec emax m e = true -> e <= emax - prec ->
  binary_round_aux prec emax s (Zpos m) e loc_Exact = S754_finite s m e.
Proof.
  unfold canonical_mantissa. intros Hc He. apply Z.eqb_eq in Hc.
  unfold binary_round_aux, shr_fexp, Zdigits2.
  rewrite Hc, Z.sub_diag. cbn [shr shr_record_of_loc shr_m loc_of_shr_record round_nearest_even Zdigits2].
  rewrite Hc, Z.sub_diag. cbn [shr shr_record_of_loc shr_m].
  apply Z.leb_le in He. now rewrite He.
Qed.

Lemma binary_round_aux_shifted s m e k :
  canonical_mantissa prec emax m e = true -> e <= emax - prec ->
  binary_round_aux prec emax s (Zpos (Pos.iter xO m k)) (e - Zpos k) loc_Exact
  = S754_finite s m e.
Proof.
  unfold canonical_mantissa. intros Hc He. pose proof Hc as Hc'. apply Z.eqb_eq in Hc.
  unfold binary_round_aux, shr_fexp at 1, Zdigits2.
  rewrite digits2_pos_iter_xO.
  replace (Zpos (digits2_pos m + k) + (e - Zpos k)) with (Zpos (digits2_pos m) + e) by lia.
  rewrite Hc. replace (e - (e - Zpos k)) with (Zpos k) by lia.
  cbn [shr shr_record_of_loc]. rewrite shr_1_iter_xO.
  cbn [shr_m loc_of_shr_record round_nearest_even].
  replace (e - Zpos k + Zpos k) with e by lia.
  unfold shr_fexp, Zdigits2. rewrite Hc, Z.sub_diag. cbn [shr shr_record_of_loc shr_m].
  apply Z.leb_le in He. now rewrite He.
Qed.

Lemma SF64mul_one_r s m e :
  bounded prec emax m e = true ->
  SF64mul (S754_finite s m e) one64 = S754_finite s m e.
Proof.
  unfold bounded. intros Hb. apply andb_prop in Hb as [Hc He]. apply Z.leb_le in He.
  unfold SF64mul, SFmul, one64. rewrite xorb_false_r.
  rewrite Pos.mul_comm.
  change (4503599627370496 * m)%positive with (Pos.iter xO m 52).
  change (e + -52) with (e - 52).
  now apply binary_round_aux_shifted.
Qed.

Lemma div_eucl_mul (q m : positive) :
  Z.div_eucl (Zpos m * Zpos q) (Zpos m) = (Zpos q, 0).
Proof.
  pose proof (Z.div_mul (Zpos q) (Zpos m)) as Hq.
  pose proof (Z.mod_mul (Zpos q) (Zpos m)) as Hr.
  rewrite Z.mul_comm. unfold Z.div, Z.modulo in Hq, Hr.
  destruct (Z.div_eucl (Zpos q * Zpos m) (Zpos m)) as [q' r'].
  rewrite Hq, Hr by easy. reflexivity.
Qed.

Lemma SF64div_self s m e :
  SF64div (S754_finite s m e) (S754_finite s m e) = one64.
Proof.
  unfold SF64div, SFdiv, SFdiv_core_binary.
  rewrite !Z.sub_diag.
  change (Z.min (fexp prec emax 0) 0) with (-53).
  change (0 - -53) with 53.
  cbv iota. rewrite Z.shiftl_mul_pow2 by lia.
  change (2 ^ 53) with (Zpos 9007199254740992).
  rewrite div_eucl_mul, xorb_nilpotent.
  unfold new_location, new_location_even, new_location_odd.
  destruct (Z.even (Zpos m)); reflexivity.
Qed.

Lemma digits2_pos_bounds (p : positive) :
  2 ^ (Zpos (digits2_pos p) - 1) <= Zpos p < 2 ^ Zpos (digits2_pos p).
Proof.
  induction p as [p IH|p IH|]; cbn [digits2_pos].
  - rewrite Pos2Z.inj_succ.
    replace (Z.succ (Zpos (digits2_pos p)) - 1) with (Z.succ (Zpos (digits2_pos p) - 1)) by lia.
    rewrite !Z.pow_succ_r by lia. lia.
  - rewrite Pos2Z.inj_succ.
    replace (Z.succ (Zpos (digits2_pos p)) - 1) with (Z.succ (Zpos (digits2_pos p) - 1)) by lia.
    rewrite !Z.pow_succ_r by lia. lia.
  - cbn. lia.
Qed.

(** An integer below 2^53 converts exactly. *)
Lemma binary_normalize_small (c : positive) :
  Zpos (digits2_pos c) <= 53 ->
  exists m e, binary_normalize prec emax (Zpos c) 0 false = S754_finite false m e
    /\ bounded prec emax m e = true
    /\ (-52 < e \/ (e = -52 /\ m = 4503599627370496%positive)).
Proof.
  intros Hd. unfold binary_normalize, binary_round.
  assert (Hf : fexp prec emax (Zpos (digits2_pos c) + 0) = Zpos (digits2_pos c) - 53).
  { unfold fexp, FloatOps.emin, SpecFloat.emin, prec, emax. lia. }
  rewrite Hf. unfold shl_align. rewrite Z.sub_0_r.
  destruct (Zpos (digits2_pos c) - 53) as [|k|k] eqn:Hk; try lia.
  - exists c, 0. rewrite binary_round_aux_canonical.
    + repeat split; [|lia]. unfold bounded, canonical_mantissa. rewrite Hf. reflexivity.
    + unfold canonical_mantissa. rewrite Hf. reflexivity.
    + unfold prec, emax. lia.
  - exists (Pos.iter xO c k), (Zneg k).
    assert (Hcan : canonical_mantissa prec emax (Pos.iter xO c k) (Zneg k) = true).
    { unfold canonical_mantissa. rewrite digits2_pos_iter_xO. apply Z.eqb_eq.
      unfold fexp, FloatOps.emin, SpecFloat.emin, prec, emax. lia. }
    rewrite binary_round_aux_canonical; [|exact Hcan|unfold prec, emax; lia].
    repeat split.
    + unfold bounded. rewrite Hcan. reflexivity.
    + assert (k = 52 \/ k < 52)%positive as [->|Hlt] by lia.
      * right. split; [reflexivity|].
        assert (digits2_pos c = 1%positive) as Hone by lia.
        destruct c; cbn [digits2_pos] in Hone; try lia. reflexivity.
      * left. lia.
Qed.

Lemma bounded_digits m e : bounded prec emax m e = true -> Zpos (digits2_pos m) <= 53.
Proof.
  unfold bounded, canonical_mantissa. intros H. apply andb_prop in H as [H _].
  apply Z.eqb_eq in H. revert H.
  unfold fexp, FloatOps.emin, SpecFloat.emin, prec, emax. lia.
Qed.

Lemma digits2_pos_le (c : positive) n : 0 <= n -> Zpos c < 2 ^ n -> Zpos (digits2_pos c) <= n.
Proof.
  intros Hn Hc. destruct (digits2_pos_bounds c) as [Hlo _].
  destruct (Z_le_gt_dec (Zpos (digits2_pos c)) n) as [|Hgt]; [assumption|].
  assert (2 ^ n <= 2 ^ (Zpos (digits2_pos c) - 1)) by (apply Z.pow_le_mono_r; lia).
  lia.
Qed.

Lemma SFceil_pos_ge_one x :
  valid_binary x = true -> SFltb (S754_zero false) x = true ->
  valid_binary (JS.SFceil x) = true /\ SFleb one64 (JS.SFceil x) = true.
Proof.
  destruct x as [s|s| |s m e]; try easy.
  - destruct s; easy.
  - destruct s; [easy|]. intros Hv _. cbn [valid_binary] in Hv.
    unfold JS.SFceil. destruct (0 <=? e) eqn:He.
    + split; [exact Hv|]. apply Z.leb_le in He.
      unfold SFleb, SFcompare, one64.
      assert ((-52 ?= e) = Lt) as -> by (apply Z.compare_lt_iff; lia). reflexivity.
    + apply Z.leb_gt in He. pose proof (bounded_digits _ _ Hv) as Hd.
      destruct (digits2_pos_bounds m) as [_ Hm].
      assert (Hm53 : Zpos m < 2 ^ 53).
      { eapply Z.lt_le_trans; [exact Hm|]. apply Z.pow_le_mono_r; lia. }
      set (q := Z.shiftr (Zpos m) (- e)).
      assert (Hq : 0 <= q <= 2 ^ 52 - 1).
      { unfold q. rewrite Z.shiftr_div_pow2 by lia. split.
        - apply Z.div_pos; [lia|]. apply Z.pow_pos_nonneg; lia.
        - assert (Zpos m / 2 ^ (- e) <= Zpos m / 2 ^ 1).
          { apply Z.div_le_compat_l; [lia|]. split; [lia|]. apply Z.pow_le_mono_r; lia. }
          assert (Zpos m / 2 ^ 1 <= (2 ^ 53 - 1) / 2 ^ 1) by (apply Z.div_le_mono; lia).
          change ((2 ^ 53 - 1) / 2 ^ 1) with (2 ^ 52 - 1) in *. lia. }
      set (c := if Z.shiftl q (- e) =? Zpos m then q else q + 1).
      assert (Hc : 1 <= c <= 2 ^ 52).
      { unfold c. destruct (Z.shiftl q (- e) =? Zpos m) eqn:Hex; [|lia].
        apply Z.eqb_eq in Hex. split; [|lia].
        destruct (Z.eq_dec q 0) as [->|]; [|lia].
        rewrite Z.shiftl_0_l in Hex. lia. }
      destruct c as [|c'|c'] eqn:Ec; try lia.
      destruct (binary_normalize_small c') as (m' & e' & -> & Hb & Hcmp).
      { apply digits2_pos_le; lia. }
      split; [exact Hb|].
      unfold SFleb, SFcompare, one64. destruct Hcmp as [Hlt|[-> ->]].
      * assert ((-52 ?= e') = Lt) as -> by (apply Z.compare_lt_iff; lia). reflexivity.
      * reflexivity.
Qed.
End SpecFloatFacts.

(** ** Facts about doubles, through the specification of the primitives *)

Create Rewrite HintDb float_spec.
#[export] Hint Rewrite FloatAxioms.eqb_spec FloatAxioms.ltb_spec FloatAxioms.leb_spec FloatAxioms.abs_spec : float_spec.

Ltac to_spec := unfold is_finite, is_infinity, is_nan, is_zero in *; autorewrite with float_spec in *.

Lemma SFeqb_refl_finite s m e : SFeqb (S754_finite s m e) (S754_finite s m e) = true.
Proof.
  unfold SFeqb, SFcompare.
  rewrite Z.compare_refl, Pos.compare_cont_refl. now destruct s.
Qed.

Lemma le_zero_not_nan x : (x <=? 0) = true -> is_nan x = false.
Proof.
  to_spec. change (Prim2SF 0) with (S754_zero false).
  destruct (Prim2SF x) as [s|s| |s m e]; try easy.
  - now destruct s.
  - intros _. now rewrite SFeqb_refl_finite.
Qed.

Lemma le_zero_not_pos x : (x <=? 0) = true -> (0 <? x) = false.
Proof.
  to_spec. change (Prim2SF 0) with (S754_zero false).
  destruct (Prim2SF x) as [s|s| |s m e]; try easy; now destruct s.
Qed.

Lemma pos_not_le_zero x : (0 <? x) = true -> (x <=? 0) = false.
Proof.
  to_spec. change (Prim2SF 0) with (S754_zero false).
  destruct (Prim2SF x) as [s|s| |s m e]; try easy; now destruct s.
Qed.

Lemma Math_max_0_nonpos x : (x <=? 0) = true -> JS.Math_max 0 x = 0.
Proof.
  intros H. unfold JS.Math_max.
  rewrite (le_zero_not_nan _ H), (le_zero_not_pos _ H).
  change (is_nan 0) with false. change (get_sign 0) with false. cbn.
  now destruct (x <? 0).
Qed.

Lemma Math_max_0_cases x :
  JS.Math_max 0 x = nan \/ JS.Math_max 0 x = 0 \/
  (JS.Math_max 0 x = x /\ is_nan x = false /\ (0 <? x) = true).
Proof.
  unfold JS.Math_max.
  change (is_nan 0) with false. change (get_sign 0) with false. cbn [orb].
  destruct (is_nan x); [now left|].
  destruct (0 <? x); [now right; right|].
  right; left. now destruct (x <? 0).
Qed.

Lemma Math_max_0_idem x : JS.Math_max 0 (JS.Math_max 0 x) = JS.Math_max 0 x.
Proof.
  destruct (Math_max_0_cases x) as [H|[H|(H & E1 & E2)]]; rewrite H.
  - reflexivity.
  - reflexivity.
  - unfold JS.Math_max. change (is_nan 0) with false. now rewrite E1, E2.
Qed.

Lemma Math_ceil_ge_one q : (0 <? q) = true -> (1 <=? JS.Math_ceil q) = true.
Proof.
  rewrite FloatAxioms.ltb_spec, FloatAxioms.leb_spec. unfold JS.Math_ceil.
  change (Prim2SF 0) with (S754_zero false). change (Prim2SF 1) with one64.
  intros H. destruct (SFceil_pos_ge_one _ (Prim2SF_valid q) H) as [Hv Hle].
  now rewrite Prim2SF_SF2Prim.
Qed.

Lemma div_self (x : float) : is_finite x = true -> (0 <? x) = true -> x / x = 1.
Proof.
  intros Hf Hp. apply Prim2SF_inj. rewrite div_spec. change (Prim2SF 1) with one64.
  to_spec. change (Prim2SF 0) with (S754_zero false) in Hp.
  destruct (Prim2SF x) as [s|s| |s m e]; try easy.
  - now destruct s.
  - apply SF64div_self.
Qed.

Lemma mul_one_r (x : float) : x * 1 = x.
Proof.
  apply Prim2SF_inj. rewrite mul_spec. change (Prim2SF 1) with one64.
  pose proof (Prim2SF_valid x) as Hv.
  destruct (Prim2SF x) as [s|s| |s m e]; [now destruct s|now destruct s|reflexivity|].
  now apply SF64mul_one_r.
Qed.

Lemma finite_mul_zero (r : float) : is_finite r = true -> r * 0 = 0 \/ r * 0 = (-0).
Proof.
  intros Hf. 
  assert (H : Prim2SF (r * 0) = S754_zero false \/ Prim2SF (r * 0) = S754_zero true).
  { rewrite mul_spec. change (Prim2SF 0) with (S754_zero false).
    to_spec. change (Prim2SF infinity) with (S754_infinity false) in Hf.
    destruct (Prim2SF r) as [s|s| |s m e]; try easy.
    - destruct s; cbn; auto.
    - destruct s; cbn in *; easy. 
    - destruct s; cbn; auto. }
  destruct H as [H|H]; [left|right]; apply Prim2SF_inj; exact H.
Qed.

Lemma lt_zero_false_of_pos x : (0 <? x) = true -> (x <? 0) = false.
Proof.
  to_spec. change (Prim2SF 0) with (S754_zero false).
  destruct (Prim2SF x) as [s|s| |s m e]; try easy; now destruct s.
Qed.

Lemma lt_zero_false_of_not_le x : (x <=? 0) = false -> (x <? 0) = false.
Proof.
  to_spec. change (Prim2SF 0) with (S754_zero false).
  destruct (Prim2SF x) as [s|s| |s m e]; try easy; now destruct s.
Qed.

(** [Math.max(0, y)] is never a negative number. *)
Lemma Math_max_0_not_negative y : (JS.Math_max 0 y <? 0) = false.
Proof.
  destruct (Math_max_0_cases y) as [H|[H|(H & _ & Hpos)]]; rewrite H.
  - reflexivity.
  - reflexivity.
  - now apply lt_zero_false_of_pos.
Qed.

(** ** The integrators never return a negative population *)

Lemma for_loop_invariant {S : Type} (Inv : S -> Prop) (body : S -> S) :
  (forall s, Inv (body s)) ->
  forall fuel i steps s r,
    Inv s -> JS.for_loop fuel i steps body s = Some r -> Inv r.
Proof.
  intros Hbody. induction fuel as [|fuel IH]; intros i steps s r Hs; cbn [JS.for_loop].
  - destruct (i <? steps); [discriminate|]. now intros [= <-].
  - destruct (i <? steps).
    + apply IH, Hbody.
    + now intros [= <-].
Qed.

Lemma predatorPreyODE_not_negative p fuel X Y t r :
  predatorPreyODE p fuel X Y t = Some r -> neverNegative r.
Proof.
  unfold predatorPreyODE. destruct ((X <=? 0) || (Y <=? 0)) eqn:Hguard.
  - intros [= <-]. split; apply Math_max_0_not_negative.
  - apply orb_false_iff in Hguard as [HX HY].
    apply for_loop_invariant.
    + intros [x y]. split; apply Math_max_0_not_negative.
    + split; now apply lt_zero_false_of_not_le.
Qed.

Lemma competitionODE_not_negative p fuel X Y t r :
  competitionODE p fuel X Y t = Some r -> neverNegative r.
Proof.
  unfold competitionODE. destruct ((X <=? 0) || (Y <=? 0)) eqn:Hguard.
  - intros [= <-]. split; apply Math_max_0_not_negative.
  - apply orb_false_iff in Hguard as [HX HY].
    apply for_loop_invariant.
    + intros [x y]. split; apply Math_max_0_not_negative.
    + split; now apply lt_zero_false_of_not_le.
Qed.

(** With the initial parameters one visualization step is ten Euler
    substeps, and ten units of fuel see the loop through. *)
Example predatorPrey_initial_step :
  predatorPreyODE defaultParams 10 50 50 0.2
  = Some (55.491352184331703, 44.872227972723834).
Proof. reflexivity. Qed.

Example competition_initial_step :
  competitionODE defaultParams 10 50 50 0.2
  = Some (57.819391492960499, 56.828544410445438).
Proof. reflexivity. Qed.

(** [Math.ceil] and [Math.max] on a few inputs. *)
Example Math_ceil_values :
  JS.Math_ceil 9.5 = 10 /\ JS.Math_ceil 10 = 10 /\ JS.Math_ceil 0.1 = 1 /\
  JS.Math_ceil (-2.5) = (-2) /\ JS.Math_ceil (-0.5) = (-0) /\
  JS.Math_ceil 0 = 0 /\ JS.Math_ceil infinity = infinity /\
  JS.Math_ceil nan = nan.
Proof. repeat split. Qed.

Example Math_max_values :
  JS.Math_max 0 3 = 3 /\ JS.Math_max 0 (-3) = 0 /\ JS.Math_max 0 (-0) = 0 /\
  JS.Math_max (-0) 0 = 0 /\ JS.Math_max 0 nan = nan /\
  JS.Math_max 0 neg_infinity = 0.
Proof. repeat split. Qed.

(** ** Lists: the last element and the last [n] elements *)

Section SliceFacts.

Context {A : Type}.
Implicit Types (l h : list A) (x : A).
Local Open Scope nat_scope.

Lemma slice_last_short n l : List.length l <= n -> JS.slice_last n l = l.
Proof.
  unfold JS.slice_last. intros H.
  replace (List.length l - n) with 0 by lia. reflexivity.
Qed.

Lemma length_slice_last n l :
  List.length (JS.slice_last n l) = Nat.min n (List.length l).
Proof. unfold JS.slice_last. rewrite length_skipn. lia. Qed.

Lemma slice_last_snoc n h x :
  1 <= n -> JS.slice_last n (JS.slice_last n h ++ [x]) = JS.slice_last n (h ++ [x]).
Proof.
  intros Hn. destruct (Nat.le_gt_cases (List.length h) n) as [Hle|Hgt].
  - now rewrite (slice_last_short n h).
  - unfold JS.slice_last.
    rewrite !length_app, length_skipn. cbn [List.length].
    rewrite !skipn_app, skipn_skipn, length_skipn.
    f_equal; f_equal; lia.
Qed.

(** The conditional the source wraps around [slice(-200)] changes nothing. *)
Lemma cap_is_slice_last n l :
  (if n <? List.length l then JS.slice_last n l else l) = JS.slice_last n l.
Proof.
  destruct (Nat.ltb_spec n (List.length l)); [reflexivity|].
  now rewrite slice_last_short.
Qed.

End SliceFacts.

Lemma lastOf_slice_last n l : 1 <= n -> lastOf (JS.slice_last n l) = lastOf l.
Proof.
  intros Hn. unfold lastOf, JS.slice_last.
  rewrite nth_error_skipn, length_skipn. f_equal. lia.
Qed.

Lemma lastOf_None l : lastOf l = None -> l = [].
Proof.
  unfold lastOf. intros H. apply nth_error_None in H.
  destruct l; [reflexivity|cbn [List.length] in H; lia].
Qed.

Lemma lastOf_Some_length l x : lastOf l = Some x -> 1 <= List.length l.
Proof.
  unfold lastOf. intros H.
  assert (List.length l - 1 < List.length l)%nat by (apply nth_error_Some; congruence).
  lia.
Qed.

(** ** The driver *)

(** A tick over the capped trajectory is a tick over the uncapped history,
    followed by [slice(-200)]. *)
Lemma updateData_appendOnly p model fuel history :
  updateData p model fuel (JS.slice_last 200 history)
  = option_map (JS.slice_last 200) (appendOnly p model fuel history).
Proof.
  unfold updateData, appendOnly.
  rewrite lastOf_slice_last by lia.
  destruct (lastOf history) as [lastPoint|] eqn:Hlast.
  - apply lastOf_Some_length in Hlast.
    assert (Hlen : (List.length (JS.slice_last 200 history) =? 0)%nat = false).
    { apply Nat.eqb_neq. rewrite length_slice_last. lia. }
    rewrite Hlen.
    destruct (nextPoint p model fuel lastPoint); cbn [option_map]; try reflexivity.
    rewrite cap_is_slice_last, slice_last_snoc by lia. reflexivity.
  - apply lastOf_None in Hlast. subst history. reflexivity.
Qed.

(** A tick never lengthens a trajectory beyond the cap. *)
Lemma updateData_length p model fuel prevData newData :
  List.length prevData <= 200 ->
  updateData p model fuel prevData = Some newData ->
  List.length newData <= 200.
Proof.
  intros Hlen. unfold updateData.
  destruct (List.length prevData =? 0)%nat; [intros [= <-]; exact Hlen|].
  destruct (lastOf prevData) as [lastPoint|]; [|intros [= <-]; exact Hlen].
  destruct (nextPoint p model fuel lastPoint); try discriminate.
  - intros [= <-]; exact Hlen.
  - intros [= <-]. rewrite cap_is_slice_last, length_slice_last. lia.
Qed.

(** A tick whose step result fails the validity test keeps the trajectory
    and still moves the clock. *)
Lemma tick_rejected fuel st lastPoint :
  isPlaying st = true ->
  lastOf (data st) = Some lastPoint ->
  nextPoint (params st) (selectedModel st) fuel lastPoint = Rejected ->
  tick fuel st
  = Some (mkState true (time st + Params.timeStep (params st)) (data st)
                  (params st) (selectedModel st)).
Proof.
  intros Hplay Hlast Hrej. unfold tick, updateData.
  rewrite Hplay, Hlast, Hrej.
  apply lastOf_Some_length in Hlast.
  destruct (Nat.eqb_spec (List.length (data st)) 0); [lia|reflexivity].
Qed.

(** A stored [0] makes [||] fall back to the initial-condition parameter. *)
Lemma or_else_zero d : JS.or_else (Some 0) d = d.
Proof. reflexivity. Qed.

(** ** Doubles that hold integers *)

Section IntegerDoubles.
Local Open Scope Z_scope.


Lemma Zpos_iter_xO (m k : positive) : Zpos (Pos.iter xO m k) = Zpos m * 2 ^ Zpos k.
Proof.
  induction k as [|k IH] using Pos.peano_ind.
  - cbn [Pos.iter]. lia.
  - rewrite Pos.iter_succ, Pos2Z.inj_xO, IH, Pos2Z.inj_succ, Z.pow_succ_r by lia. lia.
Qed.

(** Rounding an integer below 2^53 is exact, whatever the sign. *)
Lemma binary_round_small (s : bool) (c : positive) :
  Zpos (digits2_pos c) <= 53 ->
  exists m,
    binary_round prec emax s c 0 = S754_finite s m (Zpos (digits2_pos c) - 53) /\
    Zpos m = Zpos c * 2 ^ (53 - Zpos (digits2_pos c)) /\
    bounded prec emax m (Zpos (digits2_pos c) - 53) = true.
Proof.
  intros Hd. unfold binary_round.
  assert (Hf : fexp prec emax (Zpos (digits2_pos c) + 0) = Zpos (digits2_pos c) - 53).
  { unfold fexp, FloatOps.emin, SpecFloat.emin, prec, emax. lia. }
  rewrite Hf. unfold shl_align. rewrite Z.sub_0_r.
  destruct (Zpos (digits2_pos c) - 53) as [|k|k] eqn:Hk; try lia.
  - assert (Hcan : canonical_mantissa prec emax c 0 = true).
    { unfold canonical_mantissa. rewrite Hf. reflexivity. }
    exists c. rewrite binary_round_aux_canonical; [|exact Hcan|unfold prec, emax; lia].
    repeat split.
    + replace (53 - Zpos (digits2_pos c)) with 0 by lia. lia.
    + unfold bounded. rewrite Hcan. reflexivity.
  - assert (Hcan : canonical_mantissa prec emax (Pos.iter xO c k) (Zneg k) = true).
    { unfold canonical_mantissa. rewrite digits2_pos_iter_xO. apply Z.eqb_eq.
      unfold fexp, FloatOps.emin, SpecFloat.emin, prec, emax. lia. }
    exists (Pos.iter xO c k).
    rewrite binary_round_aux_canonical; [|exact Hcan|unfold prec, emax; lia].
    repeat split.
    + rewrite Zpos_iter_xO. f_equal. f_equal. lia.
    + unfold bounded. rewrite Hcan. reflexivity.
Qed.

Lemma Zfloat_Zpos (c : positive) : Zfloat (Zpos c) = binary_round prec emax false c 0.
Proof. reflexivity. Qed.

(** The canonical form of a positive integer below 2^53. *)
Lemma Zfloat_pos (c : positive) :
  Zpos (digits2_pos c) <= 53 ->
  exists m,
    Zfloat (Zpos c) = S754_finite false m (Zpos (digits2_pos c) - 53) /\
    Zpos m = Zpos c * 2 ^ (53 - Zpos (digits2_pos c)) /\
    bounded prec emax m (Zpos (digits2_pos c) - 53) = true.
Proof. intros Hd. rewrite Zfloat_Zpos. now apply binary_round_small. Qed.

Lemma SF64add_Zfloat_one (k : Z) :
  0 <= k -> k + 1 < 2 ^ 53 ->
  SF64add (Zfloat k) one64 = Zfloat (k + 1).
Proof.
  intros Hk0 Hk. destruct k as [|c|c]; [reflexivity| |lia].
  change (Zpos c + 1) with (Zpos (c + 1)) in *.
  assert (Hd1 : Zpos (digits2_pos (c + 1)) <= 53) by (apply digits2_pos_le; lia).
  assert (Hd : Zpos (digits2_pos c) <= 53) by (apply digits2_pos_le; lia).
  destruct (Zfloat_pos c Hd) as (m & -> & Hm & Hb).
  destruct (Zfloat_pos (c + 1) Hd1) as (m1 & -> & Hm1 & Hb1).
  set (d := Zpos (digits2_pos c)) in *. set (d1 := Zpos (digits2_pos (c + 1))) in *.
  assert (Hdpos : 1 <= d) by (unfold d; lia).
  assert (Hd1pos : 2 <= d1).
  { destruct (digits2_pos_bounds (c + 1)) as [_ Hup]. fold d1 in Hup.
    destruct (Z_le_gt_dec 2 d1); [assumption|].
    assert (d1 = 1) as Hone by (unfold d1 in *; lia). rewrite Hone in Hup. lia. }
  unfold SF64add, SFadd, one64.
  replace (Z.min (d - 53) (-52)) with (-52) by lia.
  (* both mantissas aligned at exponent -52 *)
  assert (Hal : Zpos (fst (shl_align m (d - 53) (-52))) = Zpos c * 2 ^ 52).
  { unfold shl_align. destruct (-52 - (d - 53)) as [|j|j] eqn:Hj; cbn [fst].
    - rewrite Hm. f_equal. f_equal. lia.
    - lia.
    - rewrite Zpos_iter_xO, Hm, <- Z.mul_assoc, <- Z.pow_add_r by lia.
      f_equal. f_equal. lia. }
  cbn [cond_Zopp]. rewrite Hal.
  change (Zpos (fst (shl_align 4503599627370496 (-52) (-52)))) with (2 ^ 52).
  replace (Zpos c * 2 ^ 52 + 2 ^ 52) with (Zpos (Pos.iter xO (c + 1)%positive 52))
    by (rewrite Zpos_iter_xO; lia).
  unfold binary_normalize, binary_round.
  rewrite digits2_pos_iter_xO.
  assert (Hf : fexp prec emax (Zpos (digits2_pos (c + 1) + 52) + -52) = d1 - 53).
  { unfold fexp, FloatOps.emin, SpecFloat.emin, prec, emax. fold d1. lia. }
  rewrite Hf. unfold shl_align.
  destruct (d1 - 53 - -52) as [|j|j] eqn:Hj; try lia.
  (* d1 - 1 = j > 0 *)
  assert (Hsplit : Pos.iter xO (c + 1)%positive 52 = Pos.iter xO m1 j).
  { apply Pos2Z.inj. rewrite !Zpos_iter_xO, Hm1, <- Z.mul_assoc, <- Z.pow_add_r by lia.
    f_equal. f_equal. lia. }
  rewrite Hsplit. replace (-52) with (d1 - 53 - Zpos j) by lia.
  unfold bounded in Hb1. apply andb_prop in Hb1 as [Hc1 He1]. apply Z.leb_le in He1.
  now apply binary_round_aux_shifted.
Qed.

Lemma SFltb_irrefl x : SFltb x x = false.
Proof.
  unfold SFltb, SFcompare. destruct x as [s|s| |s m e]; try reflexivity.
  - now destruct s.
  - rewrite Z.compare_refl, Pos.compare_cont_refl. now destruct s.
Qed.

Lemma digits2_pos_mono (a b : positive) :
  Zpos a <= Zpos b -> Zpos (digits2_pos a) <= Zpos (digits2_pos b).
Proof.
  intros Hab. destruct (digits2_pos_bounds a) as [Hlo _].
  destruct (digits2_pos_bounds b) as [_ Hhi].
  destruct (Z_le_gt_dec (Zpos (digits2_pos a)) (Zpos (digits2_pos b))) as [|Hgt];
    [assumption|].
  assert (2 ^ Zpos (digits2_pos b) <= 2 ^ (Zpos (digits2_pos a) - 1))
    by (apply Z.pow_le_mono_r; lia).
  lia.
Qed.

(** Counting up through the integers is strictly increasing for [<]. *)
Lemma Zfloat_lt (k c : Z) :
  0 <= k < c -> c < 2 ^ 53 -> SFltb (Zfloat k) (Zfloat c) = true.
Proof.
  intros [Hk Hkc] Hc. destruct c as [|c|c]; try lia.
  assert (Hdc : Zpos (digits2_pos c) <= 53) by (apply digits2_pos_le; lia).
  rewrite (Zfloat_Zpos c).
  destruct (binary_round_small false c Hdc) as (mc & -> & Hmc & _).
  destruct k as [|k|k]; [reflexivity| |lia].
  assert (Hdk : Zpos (digits2_pos k) <= 53) by (apply digits2_pos_le; lia).
  rewrite (Zfloat_Zpos k).
  destruct (binary_round_small false k Hdk) as (mk & -> & Hmk & _).
  pose proof (digits2_pos_mono k c ltac:(lia)) as Hmono.
  unfold SFltb, SFcompare.
  destruct (Z.compare_spec (Zpos (digits2_pos k) - 53) (Zpos (digits2_pos c) - 53))
    as [Heq|Hlt|Hgt]; [|reflexivity|lia].
  assert (Hd : Zpos (digits2_pos k) = Zpos (digits2_pos c)) by lia.
  rewrite Hd in Hmk.
  assert (Hm : Zpos mk < Zpos mc).
  { rewrite Hmk, Hmc. apply Z.mul_lt_mono_pos_r; [|lia].
    apply Z.pow_pos_nonneg; lia. }
  change (Pos.compare_cont Eq mk mc) with (mk ?= mc)%positive.
  assert ((mk ?= mc)%positive = Lt) as -> by (apply Pos.compare_lt_iff; lia).
  reflexivity.
Qed.

(** The integer part of a valid double with a negative exponent, and that
    part rounded up, both stay within 2^52. *)
Lemma ceil_fraction_range m e :
  bounded prec emax m e = true -> e < 0 ->
  let q := Z.shiftr (Zpos m) (- e) in
  0 <= q <= 2 ^ 52 - 1 /\
  1 <= (if Z.shiftl q (- e) =? Zpos m then q else q + 1) <= 2 ^ 52.
Proof.
  intros Hv He q. pose proof (bounded_digits _ _ Hv) as Hd.
  destruct (digits2_pos_bounds m) as [_ Hm].
  assert (Hm53 : Zpos m < 2 ^ 53).
  { eapply Z.lt_le_trans; [exact Hm|]. apply Z.pow_le_mono_r; lia. }
  assert (Hq : 0 <= q <= 2 ^ 52 - 1).
  { unfold q. rewrite Z.shiftr_div_pow2 by lia. split.
    - apply Z.div_pos; [lia|]. apply Z.pow_pos_nonneg; lia.
    - assert (Zpos m / 2 ^ (- e) <= Zpos m / 2 ^ 1).
      { apply Z.div_le_compat_l; [lia|]. split; [lia|]. apply Z.pow_le_mono_r; lia. }
      assert (Zpos m / 2 ^ 1 <= (2 ^ 53 - 1) / 2 ^ 1) by (apply Z.div_le_mono; lia).
      change ((2 ^ 53 - 1) / 2 ^ 1) with (2 ^ 52 - 1) in *. lia. }
  split; [exact Hq|].
  destruct (Z.shiftl q (- e) =? Zpos m) eqn:Hex; [|lia].
  apply Z.eqb_eq in Hex. split; [|lia].
  destruct (Z.eq_dec q 0) as [Hq0|]; [|lia].
  rewrite Hq0, Z.shiftl_0_l in Hex. lia.
Qed.

Lemma SFceil_valid x : valid_binary x = true -> valid_binary (JS.SFceil x) = true.
Proof.
  destruct x as [s|s| |s m e]; try easy. intros Hv. cbn [valid_binary] in Hv.
  unfold JS.SFceil. destruct (0 <=? e) eqn:He; [exact Hv|].
  apply Z.leb_gt in He.
  destruct (ceil_fraction_range m e Hv He) as [Hq Hc].
  destruct s.
  - destruct (Z.shiftr (Zpos m) (- e)) as [|q|q]; [reflexivity| |lia].
    cbn [Z.opp binary_normalize].
    destruct (binary_round_small true q) as (m' & -> & _ & Hb); [|exact Hb].
    apply digits2_pos_le; lia.
  - destruct (if Z.shiftl (Z.shiftr (Zpos m) (- e)) (- e) =? Zpos m
              then Z.shiftr (Zpos m) (- e) else Z.shiftr (Zpos m) (- e) + 1)
      as [|c|c]; [reflexivity| |lia].
    cbn [binary_normalize].
    destruct (binary_round_small false c) as (m' & -> & _ & Hb); [|exact Hb].
    apply digits2_pos_le; lia.
Qed.

(** Below 2^52 a positive double has a negative exponent, and its ceiling
    is the double of the integer ceiling of its value. *)
Lemma SFceil_counted s m e :
  bounded prec emax m e = true ->
  SFltb (S754_zero false) (S754_finite s m e) = true ->
  SFltb (S754_finite s m e) (S754_finite false 4503599627370496 0) = true ->
  s = false /\ e < 0 /\
  exists c, 1 <= c <= 2 ^ 52 /\
            JS.SFceil (S754_finite s m e) = Zfloat c /\
            (c - 1) * 2 ^ (- e) < Zpos m <= c * 2 ^ (- e).
Proof.
  intros Hv Hpos Hlt. destruct s; [discriminate|]. split; [reflexivity|].
  assert (He : e < 0).
  { unfold SFltb, SFcompare in Hlt.
    destruct (Z.compare_spec e 0) as [Heq|Hl|Hg]; [|exact Hl|discriminate].
    exfalso. subst e.
    assert (Hd53 : Zpos (digits2_pos m) = 53).
    { unfold bounded, canonical_mantissa in Hv. apply andb_prop in Hv as [Hc _].
      apply Z.eqb_eq in Hc. revert Hc.
      unfold fexp, FloatOps.emin, SpecFloat.emin, prec, emax. lia. }
    destruct (digits2_pos_bounds m) as [Hlo _]. rewrite Hd53 in Hlo.
    change (2 ^ (53 - 1)) with 4503599627370496 in Hlo.
    pose proof (Pos.compare_spec m 4503599627370496) as Hs.
    unfold Pos.compare in Hs. revert Hlt.
    destruct Hs as [Hc|Hc|Hc]; try discriminate.
    apply Pos2Z.pos_lt_pos in Hc. lia. }
  split; [exact He|].
  destruct (ceil_fraction_range m e Hv He) as [Hq Hc].
  unfold JS.SFceil. apply Z.leb_gt in He as He'. rewrite He'.
  set (q := Z.shiftr (Zpos m) (- e)) in *.
  exists (if Z.shiftl q (- e) =? Zpos m then q else q + 1).
  split; [exact Hc|]. split; [reflexivity|].
  assert (Hpow : 0 < 2 ^ (- e)) by (apply Z.pow_pos_nonneg; lia).
  assert (Hdiv : q = Zpos m / 2 ^ (- e)) by (unfold q; apply Z.shiftr_div_pow2; lia).
  pose proof (Z.div_mod (Zpos m) (2 ^ (- e)) ltac:(lia)) as Hdm.
  pose proof (Z.mod_pos_bound (Zpos m) (2 ^ (- e)) Hpow) as Hmod.
  rewrite <- Hdiv in Hdm.
  rewrite Z.shiftl_mul_pow2 by lia.
  destruct (Z.eqb_spec (q * 2 ^ (- e)) (Zpos m)) as [Hex|Hnex]; nia.
Qed.

End IntegerDoubles.

(** The loop [for (i = k; i < steps; i++)] over doubles that hold integers
    runs its body once per integer from [k] up to [steps]. *)
Lemma for_loop_counts {S : Type} (body : S -> S) (c : Z) :
  (c < 2 ^ 53)%Z ->
  forall (n : nat) (k : Z) (fuel : nat) (i steps : float) (s : S),
    (0 <= k)%Z -> (k + Z.of_nat n = c)%Z ->
    Prim2SF i = Zfloat k -> Prim2SF steps = Zfloat c ->
    (n <= fuel)%nat ->
    JS.for_loop fuel i steps body s = Some (Nat.iter n body s).
Proof.
  intros Hc. induction n as [|n IH]; intros k fuel i steps s Hk Hkc Hi Hsteps Hfuel.
  - assert (Hcond : (i <? steps) = false).
    { rewrite FloatAxioms.ltb_spec, Hi, Hsteps.
      replace k with c by lia. apply SFltb_irrefl. }
    destruct fuel; cbn [JS.for_loop]; rewrite Hcond; reflexivity.
  - assert (Hcond : (i <? steps) = true).
    { rewrite FloatAxioms.ltb_spec, Hi, Hsteps. apply Zfloat_lt; lia. }
    destruct fuel as [|fuel]; [lia|].
    cbn [JS.for_loop]. rewrite Hcond.
    rewrite (IH (k + 1)%Z fuel (i + 1) steps (body s)); try lia.
    + now rewrite Nat.iter_succ_r.
    + rewrite add_spec, Hi. change (Prim2SF 1) with one64.
      apply SF64add_Zfloat_one; lia.
    + exact Hsteps.
Qed.

(** ** The real value of a double, and rounding in the normal range *)

Section RealValue.
Local Open Scope Z_scope.


Lemma bpow_gt_0 e : (0 < bpow e)%R.
Proof. apply powerRZ_lt. lra. Qed.

Lemma bpow_add a b : bpow (a + b) = (bpow a * bpow b)%R.
Proof. apply powerRZ_add. lra. Qed.

Lemma bpow_IZR k : 0 <= k -> bpow k = IZR (2 ^ k).
Proof.
  intros Hk. unfold bpow. destruct k as [|p|p]; [reflexivity| |lia].
  cbn [powerRZ]. rewrite pow_IZR, positive_nat_Z. reflexivity.
Qed.

Lemma bpow_1 : bpow 1 = 2%R.
Proof.
  unfold bpow. cbn [powerRZ]. change (Pos.to_nat 1) with 1%nat. cbn [pow]. lra.
Qed.

Lemma Rabs_le_bounds (x y : R) : (Rabs x <= y -> - y <= x <= y)%R.
Proof. unfold Rabs. destruct (Rcase_abs x); lra. Qed.

Lemma bpow_le a b : a <= b -> (bpow a <= bpow b)%R.
Proof.
  intros Hab. replace b with (a + (b - a)) by lia. rewrite bpow_add.
  rewrite (bpow_IZR (b - a)) by lia.
  assert (1 <= 2 ^ (b - a)) by (apply Z.lt_succ_r, Z.lt_pred_lt_succ; cbn; lia).
  pose proof (bpow_gt_0 a). apply IZR_le in H.
  rewrite <- (Rmult_1_r (bpow a)) at 1. apply Rmult_le_compat_l; lra.
Qed.

Lemma shr_1_m mrs : 0 <= shr_m mrs -> shr_m (shr_1 mrs) = shr_m mrs / 2.
Proof.
  destruct mrs as [m r s]. cbn [shr_m shr_1]. intros Hm.
  destruct m as [|[p|p|]|p]; cbn [shr_m]; Z.to_euclidean_division_equations; lia.
Qed.

Lemma shr_m_iter (k : positive) mrs :
  0 <= shr_m mrs ->
  shr_m (SpecFloat.iter_pos shr_1 k mrs) = shr_m mrs / 2 ^ Zpos k.
Proof.
  intros Hm. rewrite iter_pos_as_iter.
  induction k as [|k IH] using Pos.peano_ind.
  - cbn [Pos.iter]. now rewrite shr_1_m.
  - rewrite Pos.iter_succ, shr_1_m, IH.
    + rewrite Pos2Z.inj_succ, Z.pow_succ_r by lia.
      rewrite Z.div_div by (try apply Z.pow_pos_nonneg; lia).
      f_equal. lia.
    + rewrite IH. apply Z.div_pos; [exact Hm|]. apply Z.pow_pos_nonneg; lia.
Qed.

Lemma shr_record_of_loc_m m l : shr_m (shr_record_of_loc m l) = m.
Proof. destruct l as [|[]]; reflexivity. Qed.

Lemma round_nearest_even_cases mx lx :
  round_nearest_even mx lx = mx \/ round_nearest_even mx lx = mx + 1.
Proof.
  destruct lx as [|[]]; cbn [round_nearest_even]; auto.
  destruct (Z.even mx); auto.
Qed.

Lemma digits2_pos_unique (p : positive) n :
  2 ^ (n - 1) <= Zpos p < 2 ^ n -> Zpos (digits2_pos p) = n.
Proof.
  intros [Hlo Hhi]. destruct (digits2_pos_bounds p) as [Dlo Dhi].
  assert (Hn : 0 < n).
  { destruct (Z_lt_le_dec 0 n) as [|Hn]; [assumption|]. exfalso.
    destruct (Z.eq_dec n 0) as [->|Hne]; [cbn in Hhi; lia|].
    rewrite (Z.pow_neg_r 2 n) in Hhi by lia. lia. }
  destruct (Z.lt_trichotomy (Zpos (digits2_pos p)) n) as [Hlt|[Heq|Hgt]];
    [|exact Heq|].
  - assert (2 ^ Zpos (digits2_pos p) <= 2 ^ (n - 1)) by (apply Z.pow_le_mono_r; lia). lia.
  - assert (2 ^ n <= 2 ^ (Zpos (digits2_pos p) - 1)) by (apply Z.pow_le_mono_r; lia). lia.
Qed.

Lemma sandwich_R (m0 m1 k e0 : Z) (X : R) :
  0 <= k -> m1 * 2 ^ k <= m0 < (m1 + 1) * 2 ^ k ->
  (IZR m0 * bpow e0 <= X < (IZR m0 + 1) * bpow e0)%R ->
  (IZR m1 * bpow (e0 + k) <= X < (IZR m1 + 1) * bpow (e0 + k))%R.
Proof.
  intros Hk [Hlo Hhi] [HXlo HXhi].
  rewrite bpow_add, (bpow_IZR k) by exact Hk.
  pose proof (bpow_gt_0 e0) as HB.
  apply IZR_le in Hlo. rewrite mult_IZR in Hlo.
  assert (Hhi' : m0 + 1 <= (m1 + 1) * 2 ^ k) by lia.
  apply IZR_le in Hhi'. rewrite mult_IZR, !plus_IZR in Hhi'.
  set (P := IZR (2 ^ k)) in *. set (B := bpow e0) in *.
  split.
  - apply Rle_trans with (IZR m0 * B)%R; [|exact HXlo]. nra.
  - apply Rlt_le_trans with ((IZR m0 + 1) * B)%R; [exact HXhi|]. nra.
Qed.

Lemma fexp_normal x : -1074 <= x - 53 -> fexp prec emax x = x - 53.
Proof. unfold fexp, FloatOps.emin, SpecFloat.emin, prec, emax. lia. Qed.

(** Rounding a mantissa of at least 53 bits in the normal range: the result
    has a 53-bit mantissa and lies within one unit in the last place of any
    real the mantissa-exponent pair brackets. *)
Lemma binary_round_aux_normal s (m0 : positive) e0 loc (X : R) (D : Z) :
  Zpos (digits2_pos m0) = D ->
  53 <= D ->
  -1074 <= e0 + D - 53 ->
  (IZR (Zpos m0) * bpow e0 <= X < (IZR (Zpos m0) + 1) * bpow e0)%R ->
  exists m2 e2,
    binary_round_aux prec emax s (Zpos m0) e0 loc
    = (if e2 <=? emax - prec then S754_finite s m2 e2 else S754_infinity s) /\
    2 ^ 52 <= Zpos m2 < 2 ^ 53 /\
    e0 + D - 53 <= e2 <= e0 + D - 52 /\
    (Rabs (IZR (Zpos m2) * bpow e2 - X) <= bpow e2)%R.
Proof.
  intros HDdef HD Hnorm HX.
  destruct (digits2_pos_bounds m0) as [Dlo Dhi]. rewrite HDdef in Dlo, Dhi.
  remember (D - 53) as k eqn:Hkdef. remember (e0 + k) as e1 eqn:He1def.
  assert (Hpk : 0 < 2 ^ k) by (apply Z.pow_pos_nonneg; lia).
  remember (Zpos m0 / 2 ^ k) as m1 eqn:Hm1def.
  assert (Hsand : m1 * 2 ^ k <= Zpos m0 < (m1 + 1) * 2 ^ k).
  { subst m1. pose proof (Z.mul_div_le (Zpos m0) (2 ^ k) Hpk).
    pose proof (Z.mul_succ_div_gt (Zpos m0) (2 ^ k) Hpk). lia. }
  assert (Hm1 : 2 ^ 52 <= m1 < 2 ^ 53).
  { assert (E1 : 2 ^ (D - 1) = 2 ^ k * 2 ^ 52).
    { rewrite <- Z.pow_add_r by lia. f_equal. lia. }
    assert (E2 : 2 ^ D = 2 ^ k * 2 ^ 53).
    { rewrite <- Z.pow_add_r by lia. f_equal. lia. }
    subst m1. split.
    - apply Z.div_le_lower_bound; [exact Hpk|]. lia.
    - apply Z.div_lt_upper_bound; [exact Hpk|]. lia. }
  (* first pass: drop the k low bits *)
  assert (H1 : exists mrs, shr_fexp prec emax (Zpos m0) e0 loc = (mrs, e1)
                           /\ shr_m mrs = m1).
  { unfold shr_fexp, Zdigits2. rewrite HDdef.
    rewrite fexp_normal by lia.
    replace (D + e0 - 53 - e0) with k by lia.
    unfold shr. subst e1 m1. destruct k as [|p|p]; try lia.
    - eexists. split; [rewrite Z.add_0_r; reflexivity|].
      rewrite shr_record_of_loc_m. cbn. now rewrite Z.div_1_r.
    - eexists. split; [reflexivity|].
      rewrite shr_m_iter; rewrite shr_record_of_loc_m; [reflexivity|lia]. }
  destruct H1 as (mrs & Hshr & Hmrs).
  assert (Hk0 : 0 <= k) by lia.
  pose proof (sandwich_R (Zpos m0) m1 k e0 X Hk0 Hsand HX) as HX1.
  rewrite <- He1def in HX1.
  pose proof (bpow_gt_0 e1) as He1pos.
  unfold binary_round_aux. rewrite Hshr. rewrite Hmrs.
  destruct (round_nearest_even_cases m1 (loc_of_shr_record mrs)) as [Hr|Hr]; rewrite Hr.
  - (* rounded down *)
    destruct m1 as [|p1|p1] eqn:Em1; try lia.
    assert (Hd : Zpos (digits2_pos p1) = 53) by (apply digits2_pos_unique; lia).
    unfold shr_fexp, Zdigits2. rewrite Hd, fexp_normal by lia.
    replace (53 + e1 - 53 - e1) with 0 by lia.
    cbn [shr shr_record_of_loc shr_m].
    exists p1, e1. repeat split; try lia.
    apply Rabs_le. lra.
  - destruct (Z.eq_dec (m1 + 1) (2 ^ 53)) as [Htop|Hntop].
    + (* rounded up into the next binade *)
      rewrite Htop. change (2 ^ 53) with (Zpos 9007199254740992).
      unfold shr_fexp, Zdigits2. 
      replace (Zpos (digits2_pos 9007199254740992)) with 54 by reflexivity.
      rewrite fexp_normal by lia.
      replace (54 + e1 - 53 - e1) with 1 by lia.
      cbn [shr shr_record_of_loc SpecFloat.iter_pos shr_1 shr_m orb].
      exists 4503599627370496%positive, (e1 + 1). repeat split; try lia.
      rewrite bpow_add, bpow_1.
      assert (Em : IZR m1 = (IZR (2 ^ 53) - 1)%R).
      { rewrite <- Htop, plus_IZR. lra. }
      change (2 ^ 53) with 9007199254740992 in Em.
      rewrite Em in HX1.
      apply Rabs_le. lra.
    + destruct (m1 + 1) as [|p1|p1] eqn:Em1; try lia.
      assert (Hd : Zpos (digits2_pos p1) = 53) by (apply digits2_pos_unique; lia).
      unfold shr_fexp, Zdigits2. rewrite Hd, fexp_normal by lia.
      replace (53 + e1 - 53 - e1) with 0 by lia.
      cbn [shr shr_record_of_loc shr_m].
      exists p1, e1. repeat split; try lia.
      assert (Em : IZR (Zpos p1) = (IZR m1 + 1)%R) by (rewrite <- Em1, plus_IZR; lra).
      rewrite Em. apply Rabs_le. lra.
Qed.

Lemma div_eucl_div_mod a b : Z.div_eucl a b = (a / b, a mod b).
Proof. unfold Z.div, Z.modulo. now destruct (Z.div_eucl a b). Qed.

(** The quotient of two normal doubles, when it is itself in the normal
    range, has a 53-bit mantissa and is within one unit in the last place of
    the real quotient. *)
Lemma SF64div_normal (m1 m2 : positive) (e1 e2 : Z) :
  2 ^ 52 <= Zpos m1 < 2 ^ 53 ->
  2 ^ 52 <= Zpos m2 < 2 ^ 53 ->
  -1074 <= e1 - e2 - 53 ->
  exists mh eh,
    SF64div (S754_finite false m1 e1) (S754_finite false m2 e2)
    = (if eh <=? emax - prec then S754_finite false mh eh else S754_infinity false) /\
    2 ^ 52 <= Zpos mh < 2 ^ 53 /\
    e1 - e2 - 53 <= eh <= e1 - e2 - 51 /\
    (Rabs (IZR (Zpos mh) * bpow eh
           - IZR (Zpos m1) * bpow e1 / (IZR (Zpos m2) * bpow e2)) <= bpow eh)%R.
Proof.
  intros Hm1 Hm2 Hnorm.
  assert (Hd1 : Zpos (digits2_pos m1) = 53) by (apply digits2_pos_unique; lia).
  assert (Hd2 : Zpos (digits2_pos m2) = 53) by (apply digits2_pos_unique; lia).
  unfold SF64div, SFdiv, SFdiv_core_binary, Zdigits2.
  rewrite Hd1, Hd2, fexp_normal by lia.
  replace (Z.min (53 + e1 - (53 + e2) - 53) (e1 - e2)) with (e1 - e2 - 53) by lia.
  replace (e1 - e2 - (e1 - e2 - 53)) with 53 by lia.
  cbv iota. rewrite Z.shiftl_mul_pow2 by lia.
  rewrite div_eucl_div_mod.
  remember (Zpos m1 * 2 ^ 53) as m' eqn:Hm'.
  remember (m' / Zpos m2) as q eqn:Hq.
  assert (Hqr : Zpos m2 * q <= m' < Zpos m2 * (q + 1)).
  { subst q. pose proof (Z.mul_div_le m' (Zpos m2) ltac:(lia)).
    pose proof (Z.mul_succ_div_gt m' (Zpos m2) ltac:(lia)). lia. }
  assert (Hqrange : 2 ^ 52 <= q < 2 ^ 54).
  { subst q. split.
    - apply Z.div_le_lower_bound; lia.
    - apply Z.div_lt_upper_bound; lia. }
  destruct q as [|q'|q'] eqn:Eq; try lia.
  set (X := (IZR (Zpos m1) * bpow e1 / (IZR (Zpos m2) * bpow e2))%R).
  assert (HX : (IZR (Zpos q') * bpow (e1 - e2 - 53) <= X
                < (IZR (Zpos q') + 1) * bpow (e1 - e2 - 53))%R).
  { assert (HA : (0 < IZR (Zpos m2))%R) by (apply IZR_lt; lia).
    pose proof (bpow_gt_0 e2) as HB2. pose proof (bpow_gt_0 (e1 - e2 - 53)) as HB.
    assert (HXeq : X = (IZR m' / IZR (Zpos m2) * bpow (e1 - e2 - 53))%R).
    { unfold X. replace e1 with ((e1 - e2 - 53) + 53 + e2) at 1 by lia.
      rewrite !bpow_add, (bpow_IZR 53) by lia.
      rewrite Hm', mult_IZR. field. lra. }
    destruct Hqr as [Hlo Hhi].
    apply IZR_le in Hlo. rewrite mult_IZR in Hlo.
    apply IZR_lt in Hhi. rewrite mult_IZR, plus_IZR in Hhi.
    rewrite HXeq. split.
    - apply Rmult_le_compat_r; [lra|].
      apply Rmult_le_reg_r with (IZR (Zpos m2)); [exact HA|].
      unfold Rdiv. rewrite Rmult_assoc, Rinv_l by lra. lra.
    - apply Rmult_lt_compat_r; [lra|].
      apply Rmult_lt_reg_r with (IZR (Zpos m2)); [exact HA|].
      unfold Rdiv. rewrite Rmult_assoc, Rinv_l by lra. lra. }
  destruct (Z_lt_le_dec (Zpos q') (2 ^ 53)) as [Hsmall|Hbig].
  - destruct (binary_round_aux_normal (xorb false false) q' (e1 - e2 - 53)
                (new_location (Zpos m2) (m' mod Zpos m2)) X 53)
      as (mh & eh & Hres & Hmh & Heh & Hbound); try lia.
    { apply digits2_pos_unique; lia. }
    { exact HX. }
    exists mh, eh. rewrite Hres. repeat split; try lia. exact Hbound.
  - destruct (binary_round_aux_normal (xorb false false) q' (e1 - e2 - 53)
                (new_location (Zpos m2) (m' mod Zpos m2)) X 54)
      as (mh & eh & Hres & Hmh & Heh & Hbound); try lia.
    { apply digits2_pos_unique; lia. }
    { exact HX. }
    exists mh, eh. rewrite Hres. repeat split; try lia. exact Hbound.
Qed.

Lemma SF64mul_normal (m1 m2 : positive) (e1 e2 : Z) :
  2 ^ 52 <= Zpos m1 < 2 ^ 53 ->
  2 ^ 52 <= Zpos m2 < 2 ^ 53 ->
  -1074 <= e1 + e2 + 52 ->
  exists mp ep,
    SF64mul (S754_finite false m1 e1) (S754_finite false m2 e2)
    = (if ep <=? emax - prec then S754_finite false mp ep else S754_infinity false) /\
    2 ^ 52 <= Zpos mp < 2 ^ 53 /\
    e1 + e2 + 52 <= ep <= e1 + e2 + 54 /\
    (Rabs (IZR (Zpos mp) * bpow ep
           - IZR (Zpos m1) * bpow e1 * (IZR (Zpos m2) * bpow e2)) <= bpow ep)%R.
Proof.
  intros Hm1 Hm2 Hnorm. unfold SF64mul, SFmul.
  assert (Hprod : 2 ^ 104 <= Zpos (m1 * m2) < 2 ^ 106).
  { rewrite Pos2Z.inj_mul. split.
    - change (2 ^ 104) with (2 ^ 52 * 2 ^ 52). apply Z.mul_le_mono_nonneg; lia.
    - change (2 ^ 106) with (2 ^ 53 * 2 ^ 53). apply Z.mul_lt_mono_nonneg; lia. }
  set (X := (IZR (Zpos m1) * bpow e1 * (IZR (Zpos m2) * bpow e2))%R).
  assert (HX : (IZR (Zpos (m1 * m2)) * bpow (e1 + e2) <= X
                < (IZR (Zpos (m1 * m2)) + 1) * bpow (e1 + e2))%R).
  { unfold X. rewrite Pos2Z.inj_mul, mult_IZR, bpow_add.
    pose proof (bpow_gt_0 e1). pose proof (bpow_gt_0 e2).
    assert (0 < bpow e1 * bpow e2)%R by (apply Rmult_lt_0_compat; assumption).
    split; [right; ring|]. nra. }
  destruct (Z_lt_le_dec (Zpos (m1 * m2)) (2 ^ 105)) as [Hsmall|Hbig].
  - destruct (binary_round_aux_normal (xorb false false) (m1 * m2) (e1 + e2)
                loc_Exact X 105)
      as (mp & ep & Hres & Hmp & Hep & Hbound); try lia.
    { apply digits2_pos_unique; lia. }
    { exact HX. }
    exists mp, ep. rewrite Hres. repeat split; try lia. exact Hbound.
  - destruct (binary_round_aux_normal (xorb false false) (m1 * m2) (e1 + e2)
                loc_Exact X 106)
      as (mp & ep & Hres & Hmp & Hep & Hbound); try lia.
    { apply digits2_pos_unique; lia. }
    { exact HX. }
    exists mp, ep. rewrite Hres. repeat split; try lia. exact Hbound.
Qed.

(** The double of a positive integer up to 2^52 is a normal double whose
    value is that integer. *)
Lemma Zfloat_value (c : Z) :
  1 <= c <= 2 ^ 52 ->
  exists mn en,
    Zfloat c = S754_finite false mn en /\
    2 ^ 52 <= Zpos mn < 2 ^ 53 /\ -52 <= en <= 0 /\
    (IZR (Zpos mn) * bpow en = IZR c)%R.
Proof.
  intros Hc. destruct c as [|c|c]; try lia.
  assert (Hd : Zpos (digits2_pos c) <= 53) by (apply digits2_pos_le; lia).
  rewrite Zfloat_Zpos.
  destruct (binary_round_small false c Hd) as (mn & -> & Hmn & _).
  destruct (digits2_pos_bounds c) as [Dlo Dhi].
  remember (Zpos (digits2_pos c)) as d eqn:Hddef.
  assert (Hd1 : 1 <= d) by lia.
  exists mn, (d - 53). split; [reflexivity|].
  assert (Hpow : 0 < 2 ^ (53 - d)) by (apply Z.pow_pos_nonneg; lia).
  assert (E52 : 2 ^ 52 = 2 ^ (d - 1) * 2 ^ (53 - d)).
  { rewrite <- Z.pow_add_r by lia. f_equal. lia. }
  assert (E53 : 2 ^ 53 = 2 ^ d * 2 ^ (53 - d)).
  { rewrite <- Z.pow_add_r by lia. f_equal. lia. }
  repeat split; try lia.
  - rewrite Hmn, E52. apply Z.mul_le_mono_nonneg_r; lia.
  - rewrite Hmn, E53. apply Z.mul_lt_mono_pos_r; lia.
  - rewrite Hmn, mult_IZR, <- (bpow_IZR (53 - d)) by lia.
    rewrite Rmult_assoc, <- bpow_add.
    replace (53 - d + (d - 53)) with 0 by lia.
    unfold bpow. cbn [powerRZ]. ring.
Qed.

(** Rounding noise of two operations, each within a relative 2^-52. *)
Lemma two_roundings (T Y P eps : R) :
  (0 < eps <= / 4)%R -> (0 < Y)%R -> (0 < P)%R ->
  (Rabs (Y - T) <= eps * Y)%R ->
  (Rabs (P - Y) <= eps * P)%R ->
  (Rabs (P - T) <= 4 * eps * T)%R.
Proof.
  intros Heps HY HP HYT HPY.
  apply Rabs_le_bounds in HYT. apply Rabs_le_bounds in HPY.
  assert (eps * Y <= Y / 4)%R by nra.
  assert (eps * P <= P / 4)%R by nra.
  assert (Y <= 4 / 3 * T)%R by lra.
  assert (P <= 4 / 3 * Y)%R by lra.
  assert (4 / 5 * T <= Y)%R by lra.
  apply Rabs_le. split.
  - assert (eps * (P + Y) <= 4 * eps * T)%R; [|lra].
    replace (4 * eps * T)%R with (eps * (4 * T))%R by ring.
    apply Rmult_le_compat_l; lra.
  - assert (eps * (P + Y) <= 4 * eps * T)%R; [|lra].
    replace (4 * eps * T)%R with (eps * (4 * T))%R by ring.
    apply Rmult_le_compat_l; lra.
Qed.

Lemma bpow_m2 : bpow (-2) = (/ 4)%R.
Proof.
  unfold bpow. cbn [powerRZ]. change (Pos.to_nat 2) with 2%nat. cbn [pow].
  f_equal. lra.
Qed.

Lemma bpow_52_inv : (bpow (-52) * IZR (2 ^ 52) = 1)%R.
Proof.
  rewrite <- (bpow_IZR 52) by lia. rewrite <- bpow_add.
  unfold bpow. reflexivity.
Qed.

(** A double with a 53-bit mantissa carries at least 2^52 units in the last
    place. *)
Lemma ulp_le_value (m : positive) (e : Z) :
  2 ^ 52 <= Zpos m -> (bpow e <= bpow (-52) * (IZR (Zpos m) * bpow e))%R.
Proof.
  intros Hm. apply IZR_le in Hm.
  pose proof (bpow_gt_0 e). pose proof (bpow_gt_0 (-52)). pose proof bpow_52_inv.
  assert (bpow e = bpow (-52) * (IZR (2 ^ 52) * bpow e))%R as Heq by nra.
  rewrite Heq at 1. apply Rmult_le_compat_l; [lra|].
  apply Rmult_le_compat_r; lra.
Qed.

Lemma partition_SF (mT : positive) (eT c : Z) :
  2 ^ 52 <= Zpos mT < 2 ^ 53 -> -1021 <= eT <= 960 -> 1 <= c <= 2 ^ 52 ->
  exists mh eh mp ep,
    SF64div (S754_finite false mT eT) (Zfloat c) = S754_finite false mh eh /\
    SF64mul (Zfloat c) (S754_finite false mh eh) = S754_finite false mp ep /\
    (Rabs (IZR c * SF2R (S754_finite false mh eh) - SF2R (S754_finite false mT eT))
     <= bpow (-52) * (IZR c * SF2R (S754_finite false mh eh)))%R /\
    (Rabs (SF2R (S754_finite false mp ep) - SF2R (S754_finite false mT eT))
     <= bpow (-50) * SF2R (S754_finite false mT eT))%R.
Proof.
  intros HmT HeT Hc.
  destruct (Zfloat_value c Hc) as (mn & en & -> & Hmn & Hen & Hval).
  destruct (SF64div_normal mT mn eT en HmT Hmn ltac:(lia))
    as (mh & eh & Hdiv & Hmh & Heh & Hb1).
  assert (Hfin1 : (eh <=? emax - prec) = true) by (apply Z.leb_le; unfold emax, prec; lia).
  rewrite Hfin1 in Hdiv.
  destruct (SF64mul_normal mn mh en eh Hmn Hmh ltac:(lia))
    as (mp & ep & Hmul & Hmp & Hep & Hb2).
  assert (Hfin2 : (ep <=? emax - prec) = true) by (apply Z.leb_le; unfold emax, prec; lia).
  rewrite Hfin2 in Hmul.
  exists mh, eh, mp, ep. split; [exact Hdiv|]. split; [exact Hmul|].
  cbn [SF2R]. rewrite Hval in Hb1, Hb2.
  set (vh := (IZR (Zpos mh) * bpow eh)%R) in *.
  set (vp := (IZR (Zpos mp) * bpow ep)%R) in *.
  set (Tr := (IZR (Zpos mT) * bpow eT)%R) in *.
  assert (HC : (1 <= IZR c)%R) by (apply IZR_le; lia).
  assert (HTr : (0 < Tr)%R).
  { unfold Tr. apply Rmult_lt_0_compat; [apply IZR_lt; lia|apply bpow_gt_0]. }
  assert (Hvh : (0 < vh)%R).
  { unfold vh. apply Rmult_lt_0_compat; [apply IZR_lt; lia|apply bpow_gt_0]. }
  assert (Hvp : (0 < vp)%R).
  { unfold vp. apply Rmult_lt_0_compat; [apply IZR_lt; lia|apply bpow_gt_0]. }
  pose proof (ulp_le_value mh eh ltac:(lia)) as Hu1. fold vh in Hu1.
  pose proof (ulp_le_value mp ep ltac:(lia)) as Hu2. fold vp in Hu2.
  pose proof (bpow_gt_0 (-52)) as Heps.
  assert (Hcover : (Rabs (IZR c * vh - Tr) <= bpow (-52) * (IZR c * vh))%R).
  { apply Rabs_le_bounds in Hb1.
    assert (Hdivmul : (IZR c * (Tr / IZR c) = Tr)%R) by (field; lra).
    assert (IZR c * bpow eh <= bpow (-52) * (IZR c * vh))%R.
    { replace (bpow (-52) * (IZR c * vh))%R with (IZR c * (bpow (-52) * vh))%R by ring.
      apply Rmult_le_compat_l; lra. }
    apply Rabs_le. split.
    - assert (IZR c * (- bpow eh) <= IZR c * (vh - Tr / IZR c))%R
        by (apply Rmult_le_compat_l; lra).
      lra.
    - assert (IZR c * (vh - Tr / IZR c) <= IZR c * bpow eh)%R
        by (apply Rmult_le_compat_l; lra).
      lra. }
  split; [exact Hcover|].
  replace (bpow (-50) * Tr)%R with (4 * bpow (-52) * Tr)%R.
  - apply two_roundings with (Y := (IZR c * vh)%R).
    + split; [exact Heps|]. rewrite <- bpow_m2. apply bpow_le. lia.
    + apply Rmult_lt_0_compat; lra.
    + exact Hvp.
    + exact Hcover.
    + eapply Rle_trans; [exact Hb2|exact Hu2].
  - replace (-50) with (2 + -52) by lia. rewrite bpow_add.
    replace (bpow 2) with 4%R; [ring|].
    unfold bpow. cbn [powerRZ]. change (Pos.to_nat 2) with 2%nat. cbn [pow]. lra.
Qed.

End RealValue.

(** ** The substep count and the substep size *)


Lemma Prim2SF_Math_ceil q : Prim2SF (JS.Math_ceil q) = JS.SFceil (Prim2SF q).
Proof.
  unfold JS.Math_ceil. apply Prim2SF_SF2Prim, SFceil_valid, Prim2SF_valid.
Qed.

(** The substep count is the double of the integer ceiling of the quotient. *)
Lemma substeps_counted p timeStep :
  (0 <? timeStep / Params.dt p) = true ->
  (timeStep / Params.dt p <? 4503599627370496) = true ->
  exists c : Z,
    (1 <= c <= 2 ^ 52)%Z /\
    Prim2SF (substeps p timeStep) = Zfloat c /\
    (IZR c - 1 < F2R (timeStep / Params.dt p) <= IZR c)%R.
Proof.
  intros Hpos Hlt. unfold substeps, F2R. rewrite Prim2SF_Math_ceil.
  rewrite FloatAxioms.ltb_spec in Hpos, Hlt.
  change (Prim2SF 0) with (S754_zero false) in Hpos.
  change (Prim2SF 4503599627370496) with (S754_finite false 4503599627370496 0) in Hlt.
  pose proof (Prim2SF_valid (timeStep / Params.dt p)) as Hv.
  destruct (Prim2SF (timeStep / Params.dt p)) as [s|s| |s m e]; try discriminate.
  - destruct s; discriminate.
  - cbn [valid_binary] in Hv.
    destruct (SFceil_counted s m e Hv Hpos Hlt) as (-> & He & c & Hc & Hceil & Hint).
    exists c. split; [exact Hc|]. split; [exact Hceil|].
    cbn [SF2R].
    assert (Hb : (bpow e * IZR (2 ^ (- e)) = 1)%R).
    { rewrite <- bpow_IZR, <- bpow_add by lia.
      replace (e + - e)%Z with 0%Z by lia. reflexivity. }
    assert (Hp : (0 < IZR (2 ^ (- e)))%R).
    { apply IZR_lt. apply Z.pow_pos_nonneg; lia. }
    pose proof (bpow_gt_0 e) as Hbe.
    destruct Hint as [Hlo Hhi].
    apply IZR_lt in Hlo. rewrite mult_IZR, minus_IZR in Hlo.
    apply IZR_le in Hhi. rewrite mult_IZR in Hhi.
    set (P := IZR (2 ^ (- e))) in *. set (B := bpow e) in *.
    set (M := IZR (Zpos m)) in *. set (C := IZR c) in *.
    assert (HMB : (M * B * P = M)%R) by (rewrite Rmult_assoc, Hb; ring).
    split.
    + apply Rmult_lt_reg_r with P; [exact Hp|]. rewrite HMB. lra.
    + apply Rmult_le_reg_r with P; [exact Hp|]. rewrite HMB. lra.
Qed.

(** A double between 1e-280 and 1e280 is positive and normal. *)
Lemma mid_range_normal (x : float) :
  (1e-280 <=? x) = true -> (x <=? 1e280) = true ->
  exists m e, Prim2SF x = S754_finite false m e /\
              (2 ^ 52 <= Zpos m < 2 ^ 53)%Z /\ (-1021 <= e <= 960)%Z.
Proof.
  rewrite !FloatAxioms.leb_spec.
  let v := eval vm_compute in (Prim2SF 1e-280) in change (Prim2SF 1e-280) with v.
  let v := eval vm_compute in (Prim2SF 1e280) in change (Prim2SF 1e280) with v.
  pose proof (Prim2SF_valid x) as Hv.
  destruct (Prim2SF x) as [s|s| |s m e]; try discriminate.
  - destruct s; discriminate.
  - destruct s; [discriminate|]. cbn [valid_binary] in Hv.
    unfold SFleb, SFcompare. intros Hlo Hhi.
    assert (He : (-983 <= e <= 878)%Z).
    { split.
      - destruct (Z.compare_spec (-983) e); try lia; discriminate.
      - destruct (Z.compare_spec e 878); try lia; discriminate. }
    exists m, e. split; [reflexivity|].
    assert (Hd : Zpos (digits2_pos m) = 53%Z).
    { unfold bounded, canonical_mantissa in Hv. apply andb_prop in Hv as [Hc _].
      apply Z.eqb_eq in Hc. revert Hc.
      unfold fexp, FloatOps.emin, SpecFloat.emin, prec, emax. lia. }
    destruct (digits2_pos_bounds m) as [Dlo Dhi]. rewrite Hd in Dlo, Dhi.
    change (53 - 1)%Z with 52%Z in Dlo. lia.
Qed.

Lemma substep_product_bound p timeStep (c : Z) :
  (1 <= c <= 2 ^ 52)%Z ->
  Prim2SF (substeps p timeStep) = Zfloat c ->
  (1e-280 <=? timeStep) = true -> (timeStep <=? 1e280) = true ->
  (Rabs (IZR c * F2R (substepSize p timeStep) - F2R timeStep)
   <= bpow (-52) * (IZR c * F2R (substepSize p timeStep)))%R /\
  (Rabs (F2R (substeps p timeStep * substepSize p timeStep) - F2R timeStep)
   <= bpow (-50) * F2R timeStep)%R.
Proof.
  intros Hc Hsteps Hlo Hhi.
  destruct (mid_range_normal timeStep Hlo Hhi) as (mT & eT & HT & HmT & HeT).
  destruct (partition_SF mT eT c HmT HeT Hc) as (mh & eh & mp & ep & Hdiv & Hmul & Hb1 & Hb2).
  assert (Hh : Prim2SF (substepSize p timeStep) = S754_finite false mh eh).
  { unfold substepSize. rewrite div_spec, HT, Hsteps. exact Hdiv. }
  assert (Hp : Prim2SF (substeps p timeStep * substepSize p timeStep)
               = S754_finite false mp ep).
  { rewrite mul_spec, Hsteps, Hh. exact Hmul. }
  unfold F2R. rewrite Hh, Hp, HT. split; assumption.
Qed.

(** ** The claims *)

(** C1.  A running tick whose step result is non-finite leaves the trajectory
    as it was, but the simulation-time clock does advance: [setTime] runs
    after every [setData], whatever the updater returned.  On [nearOverflow]
    the exponential step doubles 1e308 into [Infinity]; the tick keeps the
    one-point trajectory and moves the clock from 0 to 0.2. *)
Theorem stalled_tick_advances_clock :
  exponentialGrowthDiscrete doublingParams 1e308 = infinity /\
  exists st',
    tick 0 nearOverflow = Some st' /\
    data st' = data nearOverflow /\
    time st' = 0.2 /\
    time st' <> time nearOverflow.
Proof.
  split; [reflexivity|].
  eexists. split; [vm_compute; reflexivity|]. cbn [data time].
  repeat split.
  intros H. apply (f_equal is_zero) in H. vm_compute in H. discriminate.
Qed.

(** C2.  The discrete step functions do not clamp: with the carrying capacity
    lowered to 10 and a population of 200, the logistic step returns -3600,
    and the driver appends that negative value to the trajectory. *)
Theorem logistic_step_negative :
  nonneg 200 = true /\
  logisticGrowthDiscrete crowdedParams 200 = (-3600) /\
  nonneg (logisticGrowthDiscrete crowdedParams 200) = false /\
  updateData crowdedParams "logistic" 0 [initialData crowdedParams "logistic"]
  = Some [DataPoint.mk 0 (Some 200) None None None;
          DataPoint.mk 0.2 (Some (-3600)) None None None].
Proof. repeat split. Qed.

(** C3.  A last point with N = 0 is not stepped from 0: [lastPoint.N ||
    params.N0] replaces the falsy 0 by N0 = 50, and the appended point holds
    60, where the step function applied to 0 gives 0. *)
Theorem extinct_point_restarts :
  lastOf [extinctPoint] = Some extinctPoint /\
  DataPoint.N extinctPoint = Some 0 /\
  exponentialGrowthDiscrete defaultParams 0 = 0 /\
  updateData defaultParams "exponential" 0 [extinctPoint]
  = Some [extinctPoint; DataPoint.mk 0.2 (Some 60) None None None].
Proof. repeat split. Qed.

(** C4.  When either input population is [<= 0], the predator-prey and the
    competition step functions return both inputs clamped by [Math.max(0, .)]
    without integrating, and that pair is a fixed point of both functions for
    every parameter set and time increment: any number of further steps
    returns it unchanged. *)
Theorem extinction_absorbing (p : Params.t) (fuel : nat) (X Y t : float) :
  (X <=? 0) || (Y <=? 0) = true ->
  let r := (JS.Math_max 0 X, JS.Math_max 0 Y) in
  predatorPreyODE p fuel X Y t = Some r /\
  competitionODE p fuel X Y t = Some r /\
  (forall p' fuel' t',
      predatorPreyODE p' fuel' (fst r) (snd r) t' = Some r /\
      competitionODE p' fuel' (fst r) (snd r) t' = Some r) /\
  (forall p' fuel' t' n,
      iterStep (fun s => predatorPreyODE p' fuel' (fst s) (snd s) t') n r = Some r /\
      iterStep (fun s => competitionODE p' fuel' (fst s) (snd s) t') n r = Some r).
Proof.
  intros Hguard r.
  assert (Hguard' : (fst r <=? 0) || (snd r <=? 0) = true).
  { unfold r. cbn [fst snd]. apply orb_true_iff in Hguard as [H|H];
      rewrite (Math_max_0_nonpos _ H); [reflexivity|apply orb_true_r]. }
  assert (Hfix : forall p' fuel' t',
             predatorPreyODE p' fuel' (fst r) (snd r) t' = Some r /\
             competitionODE p' fuel' (fst r) (snd r) t' = Some r).
  { intros p' fuel' t'. unfold predatorPreyODE, competitionODE.
    rewrite Hguard'. unfold r. cbn [fst snd]. now rewrite !Math_max_0_idem. }
  repeat split.
  - unfold predatorPreyODE. now rewrite Hguard.
  - unfold competitionODE. now rewrite Hguard.
  - apply Hfix.
  - apply Hfix.
  - induction n as [|n IH]; [reflexivity|].
    cbn [iterStep]. now rewrite (proj1 (Hfix p' fuel' t')).
  - induction n as [|n IH]; [reflexivity|].
    cbn [iterStep]. now rewrite (proj2 (Hfix p' fuel' t')).
Qed.

Lemma extinction_absorbing_witness :
  (0 <=? 0) || (20 <=? 0) = true /\
  predatorPreyODE defaultParams 0 0 20 0.2 = Some (0, 20).
Proof.
  split; [reflexivity|].
  apply (extinction_absorbing defaultParams 0 0 20 0.2). reflexivity.
Defined.

(** C5.  The trajectory is the last 200 points of the uncapped history, in
    the same order: starting from a trajectory that is [slice(-200)] of a
    history (a single seed point after a reset), any number of running ticks
    leaves a trajectory that is [slice(-200)] of the history with every
    accepted point appended.  Its length never exceeds 200 and is exactly 200
    once the history holds 200 points or more. *)
Theorem trajectory_cap (fuel n : nat) :
  forall (st st' : State) (history : list DataPoint.t),
    isPlaying st = true ->
    data st = JS.slice_last 200 history ->
    ticks fuel n st = Some st' ->
    exists history',
      appendOnlyTicks (params st) (selectedModel st) fuel n history = Some history' /\
      data st' = JS.slice_last 200 history' /\
      (List.length (data st') <= 200)%nat /\
      (200 <= List.length history' -> List.length (data st') = 200)%nat.
Proof.
  induction n as [|n IH]; intros st st' history Hplay Hdata Hrun.
  - cbn [ticks] in Hrun. injection Hrun as <-. exists history.
    repeat split; [exact Hdata| |]; rewrite Hdata, length_slice_last; lia.
  - cbn [ticks] in Hrun. unfold tick in Hrun. rewrite Hplay, Hdata in Hrun.
    rewrite updateData_appendOnly in Hrun. cbn [appendOnlyTicks].
    destruct (appendOnly (params st) (selectedModel st) fuel history)
      as [history1|]; [|discriminate].
    cbn [option_map] in Hrun.
    apply IH with (history := history1) in Hrun; [exact Hrun| |]; reflexivity.
Qed.

Lemma trajectory_cap_witness :
  isPlaying freshRun = true /\
  data freshRun = JS.slice_last 200 [initialData defaultParams "exponential"] /\
  ticks 0 250 freshRun = Some after250 /\
  exists history',
    appendOnlyTicks defaultParams "exponential" 0 250
                    [initialData defaultParams "exponential"] = Some history' /\
    data after250 = JS.slice_last 200 history' /\
    (List.length (data after250) <= 200)%nat /\
    (200 <= List.length history' -> List.length (data after250) = 200)%nat.
Proof.
  split; [reflexivity|]. split; [reflexivity|].
  split; [vm_compute; reflexivity|].
  apply (trajectory_cap 0 250 freshRun after250
                        [initialData defaultParams "exponential"]).
  - reflexivity.
  - reflexivity.
  - vm_compute; reflexivity.
Defined.

(** C6.  For every N > 0 the exponential step returns N * (1 + r) with
    r = birthRate - deathRate, each operation being the double one; for
    N = 50, birthRate = 0.3, deathRate = 0.1 the result is the double 60. *)
Theorem exponential_step :
  (forall (p : Params.t) (N : float),
      (0 <? N) = true ->
      exponentialGrowthDiscrete p N
      = N * (1 + (Params.birthRate p - Params.deathRate p))) /\
  Params.birthRate defaultParams = 0.3 /\
  Params.deathRate defaultParams = 0.1 /\
  exponentialGrowthDiscrete defaultParams 50 = 60.
Proof.
  split; [|repeat split].
  intros p N Hpos. unfold exponentialGrowthDiscrete.
  now rewrite (pos_not_le_zero _ Hpos).
Qed.

Lemma exponential_step_witness :
  (0 <? 50) = true /\
  exponentialGrowthDiscrete defaultParams 50 = 50 * (1 + (0.3 - 0.1)).
Proof.
  split; [reflexivity|].
  apply (proj1 exponential_step defaultParams 50). reflexivity.
Defined.

(** C7.  For every N <= 0 and every parameter set, the exponential and the
    logistic step both return 0. *)
Theorem extinct_discrete_step (p : Params.t) (N : float) :
  (N <=? 0) = true ->
  exponentialGrowthDiscrete p N = 0 /\ logisticGrowthDiscrete p N = 0.
Proof.
  intros H. unfold exponentialGrowthDiscrete, logisticGrowthDiscrete.
  now rewrite H.
Qed.

Lemma extinct_discrete_step_witness :
  (-5 <=? 0) = true /\
  exponentialGrowthDiscrete defaultParams (-5) = 0 /\
  logisticGrowthDiscrete defaultParams (-5) = 0.
Proof.
  split; [reflexivity|].
  apply (extinct_discrete_step defaultParams (-5)). reflexivity.
Defined.

(** C8, as stated, fails: with K = 1000 and the finite rates 1.7e308 and
    -1.7e308 their difference overflows to [Infinity], [Infinity * 0] is NaN,
    and the step at N = K returns NaN. *)
Lemma logistic_equilibrium_overflow :
  ~ (forall p : Params.t,
        (0 <? Params.K p) = true ->
        logisticGrowthDiscrete p (Params.K p) = Params.K p).
Proof.
  intros H. specialize (H extremeRates eq_refl).
  apply (f_equal is_nan) in H. vm_compute in H. discriminate.
Qed.

(** C8, amended.  For every finite carrying capacity K > 0 and all rates
    whose difference birthRate - deathRate is finite, the logistic step at
    N = K returns exactly K; with the initial parameters, N = K = 1000 gives
    1000. *)
Theorem logistic_equilibrium :
  (forall p : Params.t,
      (0 <? Params.K p) = true ->
      is_finite (Params.K p) = true ->
      is_finite (Params.birthRate p - Params.deathRate p) = true ->
      logisticGrowthDiscrete p (Params.K p) = Params.K p) /\
  Params.K defaultParams = 1000 /\
  logisticGrowthDiscrete defaultParams 1000 = 1000.
Proof.
  split; [|split; reflexivity].
  intros p Hpos HK Hr. unfold logisticGrowthDiscrete.
  rewrite (pos_not_le_zero _ Hpos), (div_self _ HK Hpos).
  change (1 - 1) with 0.
  destruct (finite_mul_zero _ Hr) as [-> | ->].
  - change (1 + 0) with 1. apply mul_one_r.
  - change (1 + -0) with 1. apply mul_one_r.
Qed.

Lemma logistic_equilibrium_witness :
  (0 <? Params.K crowdedParams) = true /\
  is_finite (Params.K crowdedParams) = true /\
  is_finite (Params.birthRate crowdedParams - Params.deathRate crowdedParams) = true /\
  logisticGrowthDiscrete crowdedParams (Params.K crowdedParams) = Params.K crowdedParams.
Proof.
  repeat (split; [reflexivity|]).
  apply (proj1 logistic_equilibrium crowdedParams); reflexivity.
Defined.

(** C9, as stated, fails twice over.  With timeStep = 0.35 and dt = 0.01 the
    substep count is 35 and the substep size 0.01, whose product is
    0.35000000000000003.  With timeStep = 5e-324 and dt = 4 the quotient
    underflows to 0, so the substep count is 0. *)
Lemma substep_product_inexact :
  ~ (forall (p : Params.t) (timeStep : float),
        (0 <? timeStep) = true -> (0 <? Params.dt p) = true ->
        substeps p timeStep * substepSize p timeStep = timeStep) /\
  ~ (forall (p : Params.t) (timeStep : float),
        (0 <? timeStep) = true -> (0 <? Params.dt p) = true ->
        (1 <=? substeps p timeStep) = true).
Proof.
  split; intros H.
  - specialize (H fineDt 0.35 eq_refl eq_refl).
    apply (f_equal (fun x => x =? 0.35)) in H. vm_compute in H. discriminate.
  - specialize (H coarseDt 5e-324 eq_refl eq_refl).
    vm_compute in H. discriminate.
Qed.

(** C9, amended.  Whenever the double quotient [timeStep / dt] is positive
    and below 2^52, the substep count [Math.ceil(timeStep / dt)] is the
    double of an integer [n >= 1], the ceiling of the quotient's value, and
    past the extinction guard each integrator returns, after exactly [n]
    passes through its loop, the [n]-fold Euler update with step
    [timeStep / substeps].  For a time step between 1e-280 and 1e280 the [n]
    substeps together cover [n * substepSize], which differs from [timeStep]
    by at most a relative 2^-52, and the double product
    [substeps * substepSize] differs from it by at most a relative 2^-50.  On
    every pair of slider settings these conditions hold and the double
    product is [timeStep] or one of its two neighbouring doubles. *)
Theorem substep_partition :
  (forall (p : Params.t) (timeStep : float),
      (0 <? timeStep / Params.dt p) = true ->
      (timeStep / Params.dt p <? 4503599627370496) = true ->
      exists n : nat,
        (1 <= n)%nat /\
        Prim2SF (substeps p timeStep) = Zfloat (Z.of_nat n) /\
        (1 <=? substeps p timeStep) = true /\
        (INR n - 1 < F2R (timeStep / Params.dt p) <= INR n)%R /\
        (forall fuel X Y,
            (n <= fuel)%nat -> (X <=? 0) || (Y <=? 0) = false ->
            predatorPreyODE p fuel X Y timeStep
            = Some (Nat.iter n
                      (fun '(N, P) =>
                         (JS.Math_max 0
                            (N + (Params.a p * N - Params.b p * N * P)
                                 * (timeStep / substeps p timeStep)),
                          JS.Math_max 0
                            (P + (Params.c p * N * P - Params.d p * P)
                                 * (timeStep / substeps p timeStep))))
                      (X, Y)) /\
            competitionODE p fuel X Y timeStep
            = Some (Nat.iter n
                      (fun '(N1, N2) =>
                         (JS.Math_max 0
                            (N1 + Params.r1 p * N1
                                  * (1 - (N1 + Params.alpha12 p * N2) / Params.K1 p)
                                  * (timeStep / substeps p timeStep)),
                          JS.Math_max 0
                            (N2 + Params.r2 p * N2
                                  * (1 - (N2 + Params.alpha21 p * N1) / Params.K2 p)
                                  * (timeStep / substeps p timeStep))))
                      (X, Y))) /\
        ((1e-280 <=? timeStep) = true -> (timeStep <=? 1e280) = true ->
         (Rabs (INR n * F2R (substepSize p timeStep) - F2R timeStep)
          <= bpow (-52) * (INR n * F2R (substepSize p timeStep)))%R /\
         (Rabs (F2R (substeps p timeStep * substepSize p timeStep) - F2R timeStep)
          <= bpow (-50) * F2R timeStep)%R)) /\
  forallb (fun timeStep => forallb (sliderPartitionOk timeStep) dtSlider)
          timeStepSlider = true.
Proof.
  split; [|vm_compute; reflexivity].
  intros p timeStep Hpos Hlt.
  destruct (substeps_counted p timeStep Hpos Hlt) as (c & Hc & Hsteps & Hceil).
  exists (Z.to_nat c).
  assert (Hn : Z.of_nat (Z.to_nat c) = c) by lia.
  assert (HINR : INR (Z.to_nat c) = IZR c) by (rewrite INR_IZR_INZ, Hn; reflexivity).
  rewrite Hn, HINR.
  split; [lia|]. split; [exact Hsteps|].
  split; [now apply Math_ceil_ge_one|]. split; [exact Hceil|]. split.
  - intros fuel X Y Hfuel Hguard. unfold predatorPreyODE, competitionODE.
    rewrite Hguard. fold (substeps p timeStep). split.
    + apply (for_loop_counts _ c) with (k := 0%Z); try lia; try assumption.
      reflexivity.
    + apply (for_loop_counts _ c) with (k := 0%Z); try lia; try assumption.
      reflexivity.
  - intros Hlo Hhi. now apply substep_product_bound.
Qed.

Lemma substep_partition_witness :
  (0 <? 0.35 / Params.dt fineDt) = true /\
  (0.35 / Params.dt fineDt <? 4503599627370496) = true /\
  exists n : nat,
    (1 <= n)%nat /\ Prim2SF (substeps fineDt 0.35) = Zfloat (Z.of_nat n).
Proof.
  split; [reflexivity|]. split; [reflexivity|].
  destruct (proj1 substep_partition fineDt 0.35 eq_refl eq_refl)
    as (n & Hn & Hsteps & _).
  exists n. split; assumption.
Defined.

(** C10.  A running tick on an empty trajectory leaves it empty. *)
Theorem tick_empty_trajectory (fuel : nat) (st : State) :
  isPlaying st = true ->
  data st = [] ->
  exists st', tick fuel st = Some st' /\ data st' = [].
Proof.
  intros Hplay Hdata. unfold tick, updateData.
  rewrite Hplay, Hdata. cbn [List.length Nat.eqb].
  eexists. split; reflexivity.
Qed.

Lemma tick_empty_trajectory_witness :
  isPlaying (mkState true 0 [] defaultParams "predatorprey") = true /\
  data (mkState true 0 [] defaultParams "predatorprey") = [] /\
  exists st',
    tick 0 (mkState true 0 [] defaultParams "predatorprey") = Some st' /\
    data st' = [].
Proof.
  split; [reflexivity|]. split; [reflexivity|].
  apply (tick_empty_trajectory 0 (mkState true 0 [] defaultParams "predatorprey"));
    reflexivity.
Defined.

(** * Further properties of the engine *)

(** ** More facts about doubles *)

Section MoreSpecFloat.
Local Open Scope Z_scope.

(** Rounding a negative significand never gives a double above zero. *)
Lemma binary_round_aux_negative mx ex lx :
  SFltb (S754_zero false) (binary_round_aux prec emax true mx ex lx) = false.
Proof.
  unfold binary_round_aux.
  destruct (shr_fexp prec emax mx ex lx) as [mrs e'].
  destruct (shr_fexp prec emax _ e' loc_Exact) as [mrs' e''].
  destruct (shr_m mrs'); [reflexivity| |reflexivity].
  destruct (e'' <=? emax - prec); reflexivity.
Qed.

(** The ceiling of a double that is not above zero is not above zero. *)
Lemma SFceil_not_positive x :
  valid_binary x = true ->
  SFltb (S754_zero false) x = false ->
  SFltb (S754_zero false) (JS.SFceil x) = false.
Proof.
  destruct x as [s|s| |s m e]; intros Hv Hx; try exact Hx.
  cbn [valid_binary] in Hv. destruct s; [|discriminate].
  unfold JS.SFceil. destruct (0 <=? e) eqn:He; [reflexivity|].
  apply Z.leb_gt in He.
  destruct (ceil_fraction_range m e Hv He) as [Hq _].
  destruct (Z.shiftr (Zpos m) (- e)) as [|q|q]; [reflexivity| |lia].
  cbn [Z.opp binary_normalize]. unfold binary_round.
  match goal with |- context [shl_align ?a ?b ?c] => destruct (shl_align a b c) end.
  apply binary_round_aux_negative.
Qed.

Lemma SFcompare_antisym x y :
  SFcompare y x = option_map CompOpp (SFcompare x y).
Proof.
  destruct x as [sx|sx| |sx mx ex], y as [sy|sy| |sy my ey]; cbn [SFcompare option_map];
    try reflexivity; try (destruct sx; reflexivity); try (destruct sy; reflexivity);
    try (destruct sx, sy; reflexivity).
  rewrite (Z.compare_antisym ey ex).
  destruct sx, sy; cbn [CompOpp]; try reflexivity;
    destruct (ey ?= ex); cbn [CompOpp]; try reflexivity;
    rewrite (Pos.compare_cont_antisym mx my Eq); cbn [CompOpp];
    destruct (Pos.compare_cont Eq mx my); reflexivity.
Qed.

Lemma SFltb_asym x y : SFltb x y = true -> SFltb y x = false.
Proof.
  unfold SFltb. rewrite (SFcompare_antisym x y).
  destruct (SFcompare x y) as [[]|]; cbn; congruence.
Qed.

(** A finite double minus itself is [+0]. *)
Lemma SF64sub_self x :
  match x with S754_zero _ | S754_finite _ _ _ => True | _ => False end ->
  SF64sub x x = S754_zero false.
Proof.
  destruct x as [s|s| |s m e]; try easy; intros _.
  - now destruct s.
  - unfold SF64sub, SFsub. now rewrite Z.sub_diag.
Qed.

End MoreSpecFloat.

Lemma Math_ceil_not_positive q : (0 <? q) = false -> (0 <? JS.Math_ceil q) = false.
Proof.
  rewrite !FloatAxioms.ltb_spec, Prim2SF_Math_ceil.
  change (Prim2SF 0) with (S754_zero false).
  apply SFceil_not_positive, Prim2SF_valid.
Qed.

(** A loop whose test fails at once leaves the state alone, whatever the
    fuel. *)
Lemma for_loop_skipped {S : Type} fuel i steps (body : S -> S) s :
  (i <? steps) = false -> JS.for_loop fuel i steps body s = Some s.
Proof. intros H. destruct fuel; cbn [JS.for_loop]; now rewrite H. Qed.

Lemma sub_self (x : float) : is_finite x = true -> x - x = 0.
Proof.
  intros Hf. apply Prim2SF_inj. rewrite sub_spec.
  change (Prim2SF 0) with (S754_zero false).
  apply SF64sub_self. to_spec.
  change (Prim2SF infinity) with (S754_infinity false) in Hf.
  destruct (Prim2SF x) as [s|s| |s m e]; try easy. now destruct s.
Qed.

(** [Math.max(a, b)] is below neither argument. *)
Lemma Math_max_lower a b :
  (JS.Math_max a b <? a) = false /\ (JS.Math_max a b <? b) = false.
Proof.
  unfold JS.Math_max.
  destruct (is_nan a || is_nan b) eqn:Hnan.
  - rewrite !FloatAxioms.ltb_spec. change (Prim2SF nan) with S754_nan. now split.
  - destruct (a <? b) eqn:Hab.
    + split.
      * rewrite FloatAxioms.ltb_spec in *. now apply SFltb_asym.
      * rewrite FloatAxioms.ltb_spec. apply SFltb_irrefl.
    + destruct (b <? a) eqn:Hba.
      * split; [|exact Hab]. rewrite FloatAxioms.ltb_spec. apply SFltb_irrefl.
      * destruct (get_sign a).
        -- split; [exact Hba|]. rewrite FloatAxioms.ltb_spec. apply SFltb_irrefl.
        -- split; [|exact Hab]. rewrite FloatAxioms.ltb_spec. apply SFltb_irrefl.
Qed.


(** ** The integrators *)

(** X1: whatever the parameters, the starting populations and the time
    increment (NaN and the infinities included), neither component of a pair
    returned by [predatorPreyODE] or [competitionODE] is a negative number. *)
Theorem integrators_never_negative (p : Params.t) (fuel : nat) (X Y t : float) :
  (forall r, predatorPreyODE p fuel X Y t = Some r -> neverNegative r) /\
  (forall r, competitionODE p fuel X Y t = Some r -> neverNegative r).
Proof.
  split; intros r Hr.
  - exact (predatorPreyODE_not_negative p fuel X Y t r Hr).
  - exact (competitionODE_not_negative p fuel X Y t r Hr).
Qed.

Lemma integrators_never_negative_witness :
  predatorPreyODE defaultParams 10 50 50 0.2
  = Some (55.491352184331703, 44.872227972723834) /\
  neverNegative (55.491352184331703, 44.872227972723834).
Proof.
  split; [reflexivity|].
  apply (proj1 (integrators_never_negative defaultParams 10 50 50 0.2)).
  reflexivity.
Defined.

(** X2: when the quotient [timeIncrement / params.dt] is not above zero
    (zero, negative or NaN) the loop body of either integrator never runs:
    two positive populations are returned exactly as they were passed in. *)
Theorem integrators_skip_without_substeps
        (p : Params.t) (fuel : nat) (X Y timeIncrement : float) :
  (0 <? timeIncrement / Params.dt p) = false ->
  (X <=? 0) || (Y <=? 0) = false ->
  predatorPreyODE p fuel X Y timeIncrement = Some (X, Y) /\
  competitionODE p fuel X Y timeIncrement = Some (X, Y).
Proof.
  intros Hq Hguard. unfold predatorPreyODE, competitionODE. rewrite Hguard.
  split; apply for_loop_skipped, Math_ceil_not_positive, Hq.
Qed.

Lemma integrators_skip_without_substeps_witness :
  (0 <? 0 / Params.dt defaultParams) = false /\
  (50 <=? 0) || (20 <=? 0) = false /\
  predatorPreyODE defaultParams 0 50 20 0 = Some (50, 20) /\
  competitionODE defaultParams 0 50 20 0 = Some (50, 20).
Proof.
  split; [reflexivity|]. split; [reflexivity|].
  apply (integrators_skip_without_substeps defaultParams 0 50 20 0); reflexivity.
Defined.


(** ** The discrete step *)

(** X8: with equal finite birth and death rates one exponential step returns
    a positive population unchanged, bit for bit. *)
Theorem exponential_balanced_rates (p : Params.t) (N : float) :
  is_finite (Params.birthRate p) = true ->
  Params.deathRate p = Params.birthRate p ->
  (0 <? N) = true ->
  exponentialGrowthDiscrete p N = N.
Proof.
  intros Hf Heq Hpos. unfold exponentialGrowthDiscrete.
  rewrite (pos_not_le_zero _ Hpos), Heq, (sub_self _ Hf).
  change (1 + 0) with 1. apply mul_one_r.
Qed.

Lemma exponential_balanced_rates_witness :
  is_finite (Params.birthRate (updateParam "deathRate" 0.3 defaultParams)) = true /\
  exponentialGrowthDiscrete (updateParam "deathRate" 0.3 defaultParams) 50 = 50.
Proof.
  split; [reflexivity|].
  apply (exponential_balanced_rates (updateParam "deathRate" 0.3 defaultParams) 50);
    reflexivity.
Defined.

(** ** The interval callback *)

Lemma lastOf_snoc (l : list DataPoint.t) x : lastOf (l ++ [x]) = Some x.
Proof.
  unfold lastOf. rewrite length_app. cbn [List.length].
  replace (List.length l + 1 - 1)%nat with (List.length l) by lia.
  rewrite nth_error_app2 by lia. now rewrite Nat.sub_diag.
Qed.

(** Every appended point is stamped [lastPoint.time + params.timeStep]. *)
Lemma nextPoint_time p model fuel lastPoint newPoint :
  nextPoint p model fuel lastPoint = Appended newPoint ->
  DataPoint.time newPoint = DataPoint.time lastPoint + Params.timeStep p.
Proof.
  unfold nextPoint.
  repeat match goal with
         | |- context [String.eqb ?a ?b] => destruct (String.eqb a b)
         | |- context [invalid ?r] => destruct (invalid r)
         | |- context [predatorPreyODE ?a ?b ?c ?d ?e] =>
             destruct (predatorPreyODE a b c d e) as [[? ?]|]
         | |- context [competitionODE ?a ?b ?c ?d ?e] =>
             destruct (competitionODE a b c d e) as [[? ?]|]
         | |- context [if ?c then Rejected else _] => destruct c
         end; try discriminate; now intros [= <-].
Qed.

(** The updater returns [prevData] itself or appends exactly one point. *)
Lemma updateData_commits (p : Params.t) (model : string) (fuel : nat)
      (prevData newData : list DataPoint.t) :
  updateData p model fuel prevData = Some newData ->
  newData = prevData \/
  exists lastPoint newPoint,
    lastOf prevData = Some lastPoint /\
    newData = JS.slice_last 200 (prevData ++ [newPoint]) /\
    lastOf newData = Some newPoint /\
    DataPoint.time newPoint = DataPoint.time lastPoint + Params.timeStep p.
Proof.
  unfold updateData.
  destruct (List.length prevData =? 0)%nat; [intros [= <-]; now left|].
  destruct (lastOf prevData) as [lastPoint|] eqn:Hlast; [|intros [= <-]; now left].
  destruct (nextPoint p model fuel lastPoint) as [| |newPoint] eqn:Hnext;
    [discriminate|intros [= <-]; now left|].
  intros [= <-]. right. exists lastPoint, newPoint.
  rewrite cap_is_slice_last.
  split; [reflexivity|]. split; [reflexivity|]. split.
  - rewrite lastOf_slice_last by lia. apply lastOf_snoc.
  - eapply nextPoint_time, Hnext.
Qed.

Lemma tick_keeps_settings fuel st st' :
  tick fuel st = Some st' ->
  params st' = params st /\ selectedModel st' = selectedModel st /\
  isPlaying st' = isPlaying st.
Proof.
  unfold tick. destruct (isPlaying st) eqn:Hplay.
  - destruct (updateData _ _ _ _); [|discriminate]. now intros [= <-].
  - intros [= <-]. now rewrite Hplay.
Qed.

(** X3: one firing of the interval callback changes neither the parameters,
    the selected model nor the play flag, and it either leaves the trajectory
    as it was or commits exactly one point: the new trajectory is the last 200
    entries of the old one with that point appended, the point is its last
    entry, and its time stamp is the old last point's plus [timeStep]. *)
Theorem tick_commits_one_point_or_none (fuel : nat) (st st' : State) :
  tick fuel st = Some st' ->
  params st' = params st /\
  selectedModel st' = selectedModel st /\
  isPlaying st' = isPlaying st /\
  (data st' = data st \/
   exists lastPoint newPoint,
     lastOf (data st) = Some lastPoint /\
     data st' = JS.slice_last 200 (data st ++ [newPoint]) /\
     lastOf (data st') = Some newPoint /\
     DataPoint.time newPoint
     = DataPoint.time lastPoint + Params.timeStep (params st)).
Proof.
  intros Htick. destruct (tick_keeps_settings _ _ _ Htick) as (Hp & Hm & Hplay).
  repeat (split; [assumption|]).
  unfold tick in Htick. destruct (isPlaying st).
  - destruct (updateData (params st) (selectedModel st) fuel (data st))
      as [d|] eqn:Hupd; [|discriminate].
    injection Htick as <-. cbn [data].
    exact (updateData_commits _ _ _ _ _ Hupd).
  - injection Htick as <-. now left.
Qed.

Lemma tick_commits_one_point_or_none_witness :
  exists st',
    tick 0 freshRun = Some st' /\
    params st' = params freshRun /\
    selectedModel st' = selectedModel freshRun /\
    isPlaying st' = isPlaying freshRun /\
    (data st' = data freshRun \/
     exists lastPoint newPoint,
       lastOf (data freshRun) = Some lastPoint /\
       data st' = JS.slice_last 200 (data freshRun ++ [newPoint]) /\
       lastOf (data st') = Some newPoint /\
       DataPoint.time newPoint
       = DataPoint.time lastPoint + Params.timeStep (params freshRun)).
Proof.
  eexists. split; [vm_compute; reflexivity|].
  apply (tick_commits_one_point_or_none 0 freshRun). vm_compute; reflexivity.
Defined.

(** X4: a run of any length changes neither the parameters nor the selected
    model, so resetting after the run gives the same state as resetting before
    it: nothing of the run survives [resetSimulation]. *)
Theorem reset_forgets_the_run (fuel n : nat) :
  forall st st',
    ticks fuel n st = Some st' ->
    params st' = params st /\
    selectedModel st' = selectedModel st /\
    resetSimulation st' = resetSimulation st.
Proof.
  induction n as [|n IH]; intros st st'; cbn [ticks].
  - now intros [= <-].
  - destruct (tick fuel st) as [st1|] eqn:Htick; [|discriminate].
    intros Hrun. apply tick_keeps_settings in Htick as (Hp & Hm & _).
    apply IH in Hrun as (Hp' & Hm' & Hr).
    unfold resetSimulation in *. rewrite Hp', Hm', Hp, Hm. repeat split.
Qed.

Lemma reset_forgets_the_run_witness :
  ticks 0 250 freshRun = Some after250 /\
  resetSimulation after250 = resetSimulation freshRun.
Proof.
  split; [vm_compute; reflexivity|].
  apply (reset_forgets_the_run 0 250 freshRun after250). vm_compute; reflexivity.
Defined.

(** X5: the interval callback never empties the trajectory: from a state
    whose trajectory holds a point, every state reached by any number of
    ticks still holds one, eviction by the 200-point cap included. *)
Theorem trajectory_never_emptied (fuel n : nat) :
  forall st st',
    data st <> [] ->
    ticks fuel n st = Some st' ->
    data st' <> [].
Proof.
  induction n as [|n IH]; intros st st' Hne; cbn [ticks].
  - now intros [= <-].
  - destruct (tick fuel st) as [st1|] eqn:Htick; [|discriminate].
    apply IH. unfold tick in Htick. destruct (isPlaying st).
    + destruct (updateData (params st) (selectedModel st) fuel (data st))
        as [d|] eqn:Hupd; [|discriminate].
      injection Htick as <-. cbn [data].
      destruct (updateData_commits _ _ _ _ _ Hupd)
        as [->|(lp & np & _ & _ & Hlast & _)]; [exact Hne|].
      intros ->. discriminate.
    + now injection Htick as <-.
Qed.

Lemma trajectory_never_emptied_witness :
  data freshRun <> [] /\ ticks 0 250 freshRun = Some after250 /\ data after250 <> [].
Proof.
  assert (H : data freshRun <> []) by (cbn; discriminate).
  split; [exact H|]. split; [vm_compute; reflexivity|].
  apply (trajectory_never_emptied 0 250 freshRun after250 H). vm_compute; reflexivity.
Defined.




(** X9: the delay handed to [setInterval] is never below 50 ms, whatever
    number the speed holds; on the 100 positions of the speed slider it is
    [150 - simulationSpeed] exactly and lies between 50 and 149, so the floor
    of 50 is reached only at the slider maximum. *)
Theorem tick_interval_bounds :
  (forall simulationSpeed, (tickInterval simulationSpeed <? 50) = false) /\
  forallb (fun s => Leibniz.eqb (tickInterval s) (150 - s)
                    && (50 <=? tickInterval s) && (tickInterval s <=? 149))
          speedSlider = true.
Proof.
  split; [|vm_compute; reflexivity].
  intros s. apply (proj1 (Math_max_lower 50 (150 - s))).
Qed.

(** ** Parameter updates *)





(** ** The diagram builder *)

Lemma Forall2_map_r {A B : Type} (R : A -> B -> Prop) (f : A -> B) (l : list A) :
  (forall a, R a (f a)) -> Forall2 R l (map f l).
Proof. intros H. induction l; cbn; constructor; auto. Qed.

Lemma Forall2_same {A : Type} (R : A -> A -> Prop) (l : list A) :
  (forall a, R a a) -> Forall2 R l l.
Proof. intros H. induction l; constructor; auto. Qed.

(** X10: a mouse move during a drag keeps the number and order of the
    builder elements and the id, type and text of each; an element is either
    untouched or placed at a position that is neither left of 0 nor above 50,
    whatever the pointer coordinates and the canvas size, NaN included. *)
Theorem drag_moves_within_bounds (dragState : DragState.t)
        (rect : option (float * float)) (clientX clientY : float)
        (builderElements : list BuilderElement.t) :
  Forall2 draggedFrom builderElements
          (handleGlobalMouseMove dragState rect clientX clientY builderElements).
Proof.
  assert (Hsame : forall e, draggedFrom e e) by (intros e; repeat split; now left).
  unfold handleGlobalMouseMove. destruct rect as [[width height]|];
    [|now apply Forall2_same].
  destruct (DragState.isDragging dragState && truthyId (DragState.elementId dragState));
    [|now apply Forall2_same].
  apply Forall2_map_r. intros e.
  destruct (sameId (BuilderElement.id e) (DragState.elementId dragState));
    [|apply Hsame].
  repeat split. right. cbn [BuilderElement.x BuilderElement.y]. split.
  - apply (proj1 (Math_max_lower 0 _)).
  - apply (proj1 (Math_max_lower 50 _)).
Qed.

(** Dragging the first sample element 80 to the left and 70 up on an 800 by
    600 canvas. *)
Example drag_sample :
  handleGlobalMouseMove sampleDrag (Some (800, 600)) 20 30 sampleElements
  = [BuilderElement.mk 7 "population" 40 60 None;
     BuilderElement.mk 8 "textbox" 300 200 (Some "Prey"%string)].
Proof. reflexivity. Qed.


